(** * EchoTalk presence watcher: the display-name resolver and the
      session state machine

    A shallow embedding of [presence-name-resolver.js] (the tiered
    resolver and its write-behind name cache) and of the presence worker
    (classifier, exclusion gating, [pollActive]).

    Conventions of the embedding.
    - A JavaScript string is a Rocq [string] read as its sequence of code
      units.  The built-ins modelled below ([toLowerCase], [trim],
      [path.basename], [decodeURI], the regular expressions) are the
      ECMAScript / Node ones on code units below 128; characters from 128
      up are carried along unchanged.
    - A [Map] is a finite map and a [Set] a finite set.  A plain object
      used as a dictionary ([cache.byExe], [cache.byPath]) is the finite
      map of its own properties, all of them strings, under
      [Object.prototype]: a read of a name it does not own gives what
      the prototype holds under that name, and an assignment to
      [__proto__] reaches the inherited setter, which ignores a string.
    - [Date.now()] is an explicit argument, I/O (the OS metadata probes,
      the foreground-window query) is an explicit environment, and an
      exception is an explicit outcome.
    - A call of an async function ([resolveDisplayName], [pollActive])
      is a function of the state it finds when nothing else runs while
      it awaits; module [Overlap] cuts the calls at their awaits and
      interleaves them. *)

From Stdlib Require Import ZArith QArith_base Ascii String List Lia.
From stdpp Require Import base option numbers strings list gmap pretty.

Local Open Scope string_scope.
Local Open Scope Z_scope.

(** ** The runtime: strings *)

Module Js.

(** Truthiness of a string: [''] is falsy, every other string truthy. *)
Definition truthy (s : string) : bool :=
  match s with EmptyString => false | String _ _ => true end.

(** [a || b] on strings. *)
Definition or_else (a b : string) : string := if truthy a then a else b.

(** [o || ''] for a property that may be undefined or null. *)
Definition or_empty (o : option string) : string :=
  match o with Some s => s | None => "" end.

Definition code (c : ascii) : N := N_of_ascii c.

Definition in_range (lo hi : N) (c : ascii) : bool :=
  ((lo <=? code c) && (code c <=? hi))%N.

Definition lower_char (c : ascii) : ascii :=
  if in_range 65 90 c then ascii_of_N (code c + 32) else c.

Definition upper_char (c : ascii) : ascii :=
  if in_range 97 122 c then ascii_of_N (code c - 32) else c.

Fixpoint map_chars (f : ascii -> ascii) (s : string) : string :=
  match s with
  | EmptyString => EmptyString
  | String c r => String (f c) (map_chars f r)
  end.

Definition toLowerCase : string -> string := map_chars lower_char.
Definition toUpperCase : string -> string := map_chars upper_char.

(** White space of [String.prototype.trim] and of [\s]. *)
Definition is_space (c : ascii) : bool :=
  in_range 9 13 c || (code c =? 32)%N.

Fixpoint trimStart (s : string) : string :=
  match s with
  | EmptyString => EmptyString
  | String c r => if is_space c then trimStart r else s
  end.

(** [trimEnd] keeps a character when it is not a space or when something
    is left after it. *)
Fixpoint trimEnd (s : string) : string :=
  match s with
  | EmptyString => EmptyString
  | String c r =>
      match trimEnd r with
      | EmptyString => if is_space c then EmptyString else String c EmptyString
      | r' => String c r'
      end
  end.

Definition trim (s : string) : string := trimEnd (trimStart s).

(** [s.slice(0, n)] *)
Fixpoint take (n : nat) (s : string) {struct s} : string :=
  match s, n with
  | String c r, S k => String c (take k r)
  | _, _ => EmptyString
  end.

(** [s.charAt(0)] and [s.slice(1)] *)
Definition charAt0 (s : string) : string :=
  match s with EmptyString => EmptyString | String c _ => String c EmptyString end.

Definition slice1 (s : string) : string :=
  match s with EmptyString => EmptyString | String _ r => r end.

Fixpoint strip_prefix (p s : string) : option string :=
  match p, s with
  | EmptyString, _ => Some s
  | String a p', String b s' =>
      if Ascii.eqb a b then strip_prefix p' s' else None
  | String _ _, EmptyString => None
  end.

Definition startsWith (s p : string) : bool :=
  match strip_prefix p s with Some _ => true | None => false end.

Fixpoint rev_onto (s acc : string) : string :=
  match s with
  | EmptyString => acc
  | String c r => rev_onto r (String c acc)
  end.

Definition rev (s : string) : string := rev_onto s EmptyString.

Definition endsWith (s p : string) : bool := startsWith (rev s) (rev p).

(** [s.replace(/SUFFIX$/, '')] for a literal suffix. *)
Definition strip_suffix (suffix s : string) : string :=
  match strip_prefix (rev suffix) (rev s) with
  | Some r => rev r
  | None => s
  end.

(** [s.replace(/\\/g, '/')] *)
Definition backslash : ascii := ascii_of_N 92.
Definition slash : ascii := ascii_of_N 47.

Definition slashes : string -> string :=
  map_chars (fun c => if Ascii.eqb c backslash then slash else c).

(** [s.replace(/[_-]+/g, ' ')]: every maximal run of underscores and
    hyphens becomes one space.  [in_run] tells that the previous
    character already belonged to the run being replaced. *)
Definition is_slug (c : ascii) : bool := (code c =? 95)%N || (code c =? 45)%N.

Fixpoint deslug_go (in_run : bool) (s : string) : string :=
  match s with
  | EmptyString => EmptyString
  | String c r =>
      if is_slug c
      then (if in_run then deslug_go true r else String " " (deslug_go true r))
      else String c (deslug_go false r)
  end.

Definition deslug : string -> string := deslug_go false.

(** [parts.join(sep)] *)
Fixpoint join (sep : string) (parts : list string) : string :=
  match parts with
  | [] => EmptyString
  | [p] => p
  | p :: ps => p ++ sep ++ join sep ps
  end.

(** *** Plain objects that hold strings *)

(** What a property read of such an object gives when it is not
    [undefined]: a string the object owns, or what [Object.prototype]
    holds under the name, which is a function, or for [__proto__] the
    prototype itself; never a string, and always truthy. *)
Inductive Value :=
  | Str (s : string)
  | Inherited (key : string).

Coercion Str : string >-> Value.

Global Instance Value_eq_dec : EqDecision Value.
Proof. solve_decision. Defined.

Definition is_truthy (v : Value) : bool :=
  match v with
  | Str s => truthy s
  | Inherited _ => true
  end.

(** The property names of [Object.prototype]. *)
Definition prototype_names : list string :=
  ["constructor"; "__defineGetter__"; "__defineSetter__"; "hasOwnProperty";
   "__lookupGetter__"; "__lookupSetter__"; "isPrototypeOf";
   "propertyIsEnumerable"; "toString"; "valueOf"; "__proto__";
   "toLocaleString"].

(** [o[k]], with [None] for [undefined]; [o] is the map of the own
    properties. *)
Definition read (o : gmap string string) (k : string) : option Value :=
  match o !! k with
  | Some v => Some (Str v)
  | None => if bool_decide (k ∈ prototype_names) then Some (Inherited k) else None
  end.

(** Whether [o[k] = v] stores a string [v]: it does, as an own property,
    unless [k] is [__proto__] and [o] does not own it; the assignment
    then calls the setter of [Object.prototype], which does nothing for
    a value that is neither an object nor [null]. *)
Definition assignable (o : gmap string string) (k : string) : bool :=
  negb (String.eqb k "__proto__") || bool_decide (is_Some (o !! k)).

(** [o[k] = v] *)
Definition assign (k v : string) (o : gmap string string) : gmap string string :=
  if assignable o k then <[k := v]> o else o.

(** [x || null] for a value. *)
Definition value_or_null (v : Value) : option Value :=
  if is_truthy v then Some v else None.

End Js.

(** ** The runtime: [path.basename] *)

Inductive Platform := win32 | darwin | linux | other_os.

Module Path.

Definition is_sep (pf : Platform) (c : ascii) : bool :=
  match pf with
  | win32 => Ascii.eqb c Js.slash || Ascii.eqb c Js.backslash
  | _ => Ascii.eqb c Js.slash
  end.

Fixpoint drop_while (p : ascii -> bool) (s : string) : string :=
  match s with
  | EmptyString => EmptyString
  | String c r => if p c then drop_while p r else s
  end.

Fixpoint take_while (p : ascii -> bool) (s : string) : string :=
  match s with
  | EmptyString => EmptyString
  | String c r => if p c then String c (take_while p r) else EmptyString
  end.

Definition is_letter (c : ascii) : bool :=
  Js.in_range 65 90 c || Js.in_range 97 122 c.

(** On Windows a leading drive designator [X:] is never part of the
    base name: Node starts its backwards scan after it. *)
Definition drop_drive (pf : Platform) (s : string) : string :=
  match pf, s with
  | win32, String d (String colon r) =>
      if is_letter d && (Js.code colon =? 58)%N then r else s
  | _, _ => s
  end.

(** Node scans from the end: trailing separators are skipped, then the
    characters up to the previous separator are the base name. *)
Definition basename (pf : Platform) (p : string) : string :=
  let back := Js.rev (drop_drive pf p) in
  Js.rev (take_while (fun c => negb (is_sep pf c)) (drop_while (is_sep pf) back)).

End Path.

(** ** The runtime: [decodeURI] *)

Module Uri.

Definition hex_val (c : ascii) : option N :=
  if Js.in_range 48 57 c then Some (Js.code c - 48)%N
  else if Js.in_range 65 70 c then Some (Js.code c - 55)%N
  else if Js.in_range 97 102 c then Some (Js.code c - 87)%N
  else None.

(** The two hexadecimal digits after a [%]. *)
Definition octet (s : string) : option (N * string) :=
  match s with
  | String h (String l r) =>
      match hex_val h, hex_val l with
      | Some a, Some b => Some (16 * a + b, r)%N
      | _, _ => None
      end
  | _ => None
  end.

(** [n] further escapes [%XX], as the continuation bytes of a UTF-8
    sequence. *)
Fixpoint continuation (n : nat) (s : string) : option (list N) :=
  match n with
  | O => Some []
  | S k =>
      match s with
      | String pc r =>
          if (Js.code pc =? 37)%N then
            match octet r with
            | Some (b, r') => cons b <$> continuation k r'
            | None => None
            end
          else None
      | EmptyString => None
      end
  end.

(** Escapes that [decodeURI] leaves as they are: the reserved set and
    the number sign. *)
Definition reserved (c : ascii) : bool :=
  existsb (Ascii.eqb c) (list_ascii_of_string ";/?:@&=+$,#").

Definition between (lo hi b : N) : bool := ((lo <=? b) && (b <=? hi))%N.

(** Well-formed UTF-8 sequences (no overlong form, no surrogate,
    nothing above U+10FFFF). *)
Definition valid_utf8 (bs : list N) : bool :=
  match bs with
  | [a; b] => between 194 223 a && between 128 191 b
  | [a; b; c] =>
      ((a =? 224)%N && between 160 191 b
       || between 225 236 a && between 128 191 b
       || (a =? 237)%N && between 128 159 b
       || between 238 239 a && between 128 191 b)
      && between 128 191 c
  | [a; b; c; d] =>
      ((a =? 240)%N && between 144 191 b
       || between 241 243 a && between 128 191 b
       || (a =? 244)%N && between 128 143 b)
      && between 128 191 c && between 128 191 d
  | _ => false
  end.

(** Number of leading one bits of an octet from 128 up. *)
Definition leading_ones (b : N) : nat :=
  if (b <? 192)%N then 1
  else if (b <? 224)%N then 2
  else if (b <? 240)%N then 3
  else if (b <? 248)%N then 4
  else 5.

Definition chars_of (bs : list N) : string :=
  string_of_list_ascii (map ascii_of_N bs).

(** One escape, read just after its [%]: the text it decodes to and the
    number of characters it takes after the [%]; [None] is URIError.
    A decoded character above 127 is kept as its UTF-8 bytes. *)
Definition escape (s : string) : option (string * nat) :=
  match octet s with
  | None => None
  | Some (b, r) =>
      if (b <? 128)%N then
        if reserved (ascii_of_N b)
        then Some (String "%" (Js.take 2 s), 2%nat)
        else Some (String (ascii_of_N b) EmptyString, 2%nat)
      else
        let n := leading_ones b in
        if (n =? 1)%nat || (4 <? n)%nat then None
        else
          match continuation (n - 1) r with
          | Some bs =>
              if valid_utf8 (b :: bs)
              then Some (chars_of (b :: bs), (2 + 3 * (n - 1))%nat)
              else None
          | None => None
          end
  end.

(** The loop of Decode; [skip] counts the characters of the escape just
    decoded that are still to be stepped over. *)
Fixpoint decode (skip : nat) (s : string) : option string :=
  match s with
  | EmptyString => Some EmptyString
  | String c r =>
      match skip with
      | S k => decode k r
      | O =>
          if (Js.code c =? 37)%N then
            match escape r with
            | Some (out, used) => String.append out <$> decode used r
            | None => None
            end
          else String c <$> decode O r
      end
  end.

(** [decodeURI(s)]: [None] when it throws URIError. *)
Definition decodeURI (s : string) : option string := decode O s.

End Uri.

(** ** The runtime: regular expressions of the path hints *)

Module Rx.

(** The fragment the hint patterns use.  Literals compare without
    regard to case (the [i] flag); a star is only ever applied to a
    character class. *)
Inductive t :=
  | Lit (s : string)
  | Cls (p : ascii -> bool)
  | Star (p : ascii -> bool)
  | Cat (a b : t)
  | Alt (a b : t)
  | Ahead (a : t).

Fixpoint lit (l s : string) : option string :=
  match l, s with
  | EmptyString, _ => Some s
  | String a l', String b s' =>
      if Ascii.eqb (Js.lower_char a) (Js.lower_char b) then lit l' s' else None
  | String _ _, EmptyString => None
  end.

Fixpoint star (p : ascii -> bool) (s : string) (k : string -> bool) : bool :=
  k s ||
  match s with
  | String c r => p c && star p r k
  | EmptyString => false
  end.

(** [matches r s k]: [r] matches a prefix of [s] and [k] accepts what
    follows it. *)
Fixpoint matches (r : t) (s : string) (k : string -> bool) : bool :=
  match r with
  | Lit l => match lit l s with Some rest => k rest | None => false end
  | Cls p => match s with String c rest => p c && k rest | EmptyString => false end
  | Star p => star p s k
  | Cat a b => matches a s (fun rest => matches b rest k)
  | Alt a b => matches a s k || matches b s k
  | Ahead a => matches a s (fun _ => true) && k s
  end.

(** [rx.test(s)]: a match starting at some position of [s]. *)
Fixpoint test (r : t) (s : string) : bool :=
  matches r s (fun _ => true) ||
  match s with
  | String _ rest => test r rest
  | EmptyString => false
  end.

(** [[\/\\]], [\s] and [.] *)
Definition sep (c : ascii) : bool := Ascii.eqb c Js.slash || Ascii.eqb c Js.backslash.
Definition ws : ascii -> bool := Js.is_space.
Definition dot (c : ascii) : bool := negb ((Js.code c =? 10)%N || (Js.code c =? 13)%N).
Definition bsl (c : ascii) : bool := Ascii.eqb c Js.backslash.

Fixpoint seq (rs : list t) : t :=
  match rs with
  | [] => Lit EmptyString
  | [r] => r
  | r :: rs' => Cat r (seq rs')
  end.

End Rx.

(** ** The presence worker: tables and classifier *)

Module Tables.

(** Launchers are ignored. *)
Definition LAUNCHER_BASES : gset string :=
  list_to_set
    ["steam.exe"; "epicgameslauncher.exe"; "battle.net.exe"; "origin.exe";
     "ea desktop.exe"].

(** The explicit stop list of applications that are not games. *)
Definition NON_GAME_BASES : gset string :=
  list_to_set
    ["chrome.exe"; "msedge.exe"; "firefox.exe"; "opera.exe"; "opera_gx.exe";
     "brave.exe"; "vivaldi.exe"; "iexplore.exe"; "safari.exe";
     "discord.exe"; "telegram.exe"; "slack.exe"; "teams.exe"; "skype.exe";
     "outlook.exe"; "winword.exe"; "excel.exe"; "powerpnt.exe";
     "thunderbird.exe";
     "code.exe"; "goland64.exe"; "idea64.exe"; "pycharm64.exe";
     "webstorm64.exe"; "clion64.exe"; "studio64.exe"; "devenv.exe";
     "sublime_text.exe"; "notepad++.exe"].

Definition KNOWN_EXE_LIST : list (string * string) :=
  [("cs2.exe", "Counter-Strike 2");
   ("csgo.exe", "Counter-Strike: Global Offensive");
   ("dota2.exe", "Dota 2");
   ("eldenring.exe", "ELDEN RING");
   ("witcher3.exe", "The Witcher 3");
   ("steam.exe", "Steam");
   ("epicgameslauncher.exe", "Epic Games Launcher");
   ("battle.net.exe", "Battle.net");
   ("code.exe", "Visual Studio Code");
   ("discord.exe", "Discord");
   ("electron", "Electron App");
   ("terminal", "Terminal")].

Definition KNOWN_EXE_MAP : gmap string string := list_to_map KNOWN_EXE_LIST.

Definition KNOWN_GEEK_SET : gset string :=
  list_to_set
    ["code.exe"; "goland64.exe"; "idea64.exe"; "pycharm64.exe";
     "webstorm64.exe"; "clion64.exe";
     "studio64.exe"; "devenv.exe"; "sublime_text.exe"; "notepad++.exe";
     "powershell.exe"; "wt.exe"; "windowsterminal.exe"; "conhost.exe";
     "cmd.exe"; "wsl.exe";
     "git.exe"; "gitkraken.exe"; "sourceTree.exe"; "docker desktop.exe";
     "docker.exe"; "kubectl.exe";
     "postman.exe"; "insomnia.exe"; "dbeaver.exe"; "tableplus.exe";
     "heidisql.exe"; "pgadmin4.exe";
     "obsidian.exe"; "figma.exe"; "unity.exe"; "ue4editor.exe";
     "unrealeditor.exe"; "blender.exe";
     "discord.exe"; "telegram.exe"; "slack.exe"].

Import Rx.

(** Hints of game-library install directories, in the order of the
    source. *)
Definition GAME_PATH_HINTS : list Rx.t :=
  [ (* /steamapps[\/\\]common[\/\\]/i *)
    seq [Lit "steamapps"; Cls sep; Lit "common"; Cls sep];
    (* /\\steam\\.*\\common\\*/i *)
    seq [Lit "\steam\"; Star dot; Lit "\common"; Star bsl];
    (* /epic\s*games/i *)
    seq [Lit "epic"; Star ws; Lit "games"];
    (* /gog\s*galaxy[\/\\]games/i *)
    seq [Lit "gog"; Star ws; Lit "galaxy"; Cls sep; Lit "games"];
    (* /ubisoft\s*(connect|game\s*launcher)/i *)
    seq [Lit "ubisoft"; Star ws;
         Alt (Lit "connect") (seq [Lit "game"; Star ws; Lit "launcher"])];
    (* /battle\.net/i *)
    Lit "battle.net";
    (* /origin[\/\\]|ea\s*(games|desktop)/i *)
    Alt (seq [Lit "origin"; Cls sep])
        (seq [Lit "ea"; Star ws; Alt (Lit "games") (Lit "desktop")]);
    (* /riot\s*games/i *)
    seq [Lit "riot"; Star ws; Lit "games"];
    (* /rockstar\s*games/i *)
    seq [Lit "rockstar"; Star ws; Lit "games"];
    (* /xboxgames|microsoft\\xbox/i *)
    Alt (Lit "xboxgames") (Lit "microsoft\xbox");
    (* /games[\/\\](?=.*\.(exe|app))/i *)
    seq [Lit "games"; Cls sep;
         Ahead (seq [Star dot; Lit "."; Alt (Lit "exe") (Lit "app")])] ].

End Tables.

(** ** The display-name resolver ([presence-name-resolver.js]) *)

Module Resolver.

Import Js.

(** [cache = { byExe, byPath, updatedAt }]; [byExe] and [byPath] are the
    own properties of the two plain objects. *)
Record Cache := mkCache {
  byExe : gmap string string;
  byPath : gmap string string;
  updatedAt : Z
}.

(** The mutable state closed over by [createNameResolver]: the cache and
    the timer of [saveCacheSoon].  [scheduled] counts the calls of
    [setTimeout] made so far. *)
Record State := mkState {
  cache : Cache;
  timer : bool;
  scheduled : nat
}.

(** What [createNameResolver] is given, and the index [warmup] built.
    The worker passes [process.platform] as [platform], so [platform]
    is also the platform whose [path.basename] is in force. *)
Record Env := mkEnv {
  knownMap : gmap string string;
  platform : Platform;
  precomputedPaths : gmap string string
}.

(** The answers of the operating system to the three metadata probes;
    each probe catches its own failures and then answers [null]. *)
Record Os := mkOs {
  fileDescriptionWindows : string -> option string;
  macBundleName : string -> option string;
  linuxDesktopName : string -> option string
}.

Definition exeBase (pf : Platform) (fp : string) : string :=
  if truthy fp then toLowerCase (Path.basename pf fp) else "".

Definition lower (s : string) : string := toLowerCase s.

(** [m.get(k)] when it is truthy, for a [Map]. *)
Definition get (m : gmap string string) (k : string) : option string :=
  match m !! k with
  | Some v => if truthy v then Some v else None
  | None => None
  end.

(** [o[k]] when it is truthy, for one of the cache objects. *)
Definition held (o : gmap string string) (k : string) : option Value :=
  match read o k with
  | Some v => if is_truthy v then Some v else None
  | None => None
  end.

Definition saveCacheSoon (st : State) : State :=
  if timer st then st
  else mkState (cache st) true (S (scheduled st)).

(** The timer callback: the cache is written out (or the write fails and
    is logged), then the timer is cleared.  The result is the new state
    and the document written. *)
Definition timerFires (write_ok : bool) (st : State) : State * option Cache :=
  (mkState (cache st) false (scheduled st),
   if write_ok then Some (cache st) else None).

Definition putCache (pf : Platform) (now : Z) (exePath name : string)
    (st : State) : State :=
  if negb (truthy name) then st
  else
    let ex := exeBase pf exePath in
    let c := cache st in
    let touch1 :=
      truthy ex && negb (bool_decide (read (byExe c) ex = Some (Str name))) in
    let byExe' := if touch1 then assign ex name (byExe c) else byExe c in
    let pLower := lower exePath in
    let touch2 :=
      truthy exePath && truthy pLower
      && negb (bool_decide (read (byPath c) pLower = Some (Str name))) in
    let byPath' := if touch2 then assign pLower name (byPath c) else byPath c in
    if touch1 || touch2
    then saveCacheSoon (mkState (mkCache byExe' byPath' now) (timer st) (scheduled st))
    else st.

(** The first match of [/steamapps\/common\/([^/]+)/]: its group. *)
Definition not_slash (c : ascii) : bool := negb (Ascii.eqb c slash).

Definition folder_at (s : string) : option string :=
  match strip_prefix "steamapps/common/" s with
  | Some rest =>
      let folder := Path.take_while not_slash rest in
      if truthy folder then Some folder else None
  | None => None
  end.

Fixpoint steam_folder (s : string) : option string :=
  match folder_at s, s with
  | Some folder, _ => Some folder
  | None, String _ r => steam_folder r
  | None, EmptyString => None
  end.

(** The tier that produced a name (what the debug log prints). *)
Inductive Tier :=
  | KNOWN | CACHE | PRECOMPUTED | FILEDESC | WINDOW_TITLE | STEAM_PATH_HINT
  | FALLBACK.

(** How a call ends: with what it returns as the name (a string, or for
    the cache tier whatever the cache object gave), or with the URIError
    of [decodeURI]. *)
Inductive Completion :=
  | Returns (tier : Tier) (name : Value)
  | Throws.

(** Tier 4, per platform. *)
Definition metadata (env : Env) (os : Os) (exePath : string) : option string :=
  match platform env with
  | win32 =>
      if truthy exePath then
        match fileDescriptionWindows os exePath with
        | Some fd => if truthy fd && (3 <=? String.length fd)%nat then Some fd else None
        | None => None
        end
      else None
  | darwin =>
      if truthy exePath && endsWith exePath ".app" then
        match macBundleName os exePath with
        | Some nm => if truthy nm then Some nm else None
        | None => None
        end
      else None
  | linux =>
      if truthy exePath then
        match linuxDesktopName os exePath with
        | Some nm => if truthy nm then Some nm else None
        | None => None
        end
      else None
  | other_os => None
  end.

Definition fallbackName (ex : string) : string :=
  let fallback := strip_suffix ".exe" ex in
  if truthy fallback
  then toUpperCase (charAt0 fallback) ++ slice1 fallback
  else "Unknown App".

Definition resolveDisplayName (env : Env) (os : Os) (now : Z)
    (exePath processName windowTitle : string) (st : State)
    : Completion * State :=
  let pf := platform env in
  let ex := or_else (exeBase pf exePath) (lower processName) in
  (* 1) KNOWN *)
  match (if truthy ex then knownMap env !! ex else None) with
  | Some name => (Returns KNOWN (Str name), st)
  | None =>
  (* 2) CACHE *)
  match (if truthy ex then held (byExe (cache st)) ex else None) with
  | Some name => (Returns CACHE name, st)
  | None =>
  match (if truthy exePath then held (byPath (cache st)) (lower exePath) else None) with
  | Some name => (Returns CACHE name, st)
  | None =>
  (* 3) PRECOMPUTED *)
  match (if truthy exePath && negb (size (precomputedPaths env) =? 0)%nat
         then get (precomputedPaths env) (lower exePath) else None) with
  | Some found => (Returns PRECOMPUTED (Str found), putCache pf now exePath found st)
  | None =>
  (* 4) FILE METADATA *)
  match metadata env os exePath with
  | Some nm => (Returns FILEDESC (Str nm), putCache pf now exePath nm st)
  | None =>
  (* 5) WINDOW TITLE *)
  if truthy windowTitle && (3 <=? String.length (trim windowTitle))%nat then
    let t := take 80 (trim windowTitle) in
    (Returns WINDOW_TITLE (Str t), putCache pf now (or_else exePath ex) t st)
  else
  (* 6) the Steam path heuristic *)
  match (if truthy exePath then steam_folder (slashes (lower exePath)) else None) with
  | Some folder =>
      match Uri.decodeURI folder with
      | Some decoded =>
          let name := deslug decoded in
          (Returns STEAM_PATH_HINT (Str name), putCache pf now exePath name st)
      | None => (Throws, st)
      end
  | None =>
  (* 7) FALLBACK *)
  let titled := fallbackName ex in
  (Returns FALLBACK (Str titled), putCache pf now (or_else exePath ex) titled st)
  end end end end end end.

(** *** The call as an async function

    [resolveDisplayName] first awaits in tier 4, and only when the
    platform and the path call for a metadata probe.  What comes before
    runs at once when the function is called, what comes after runs
    when the probe has answered, on the cache as it is then. *)

(** Tiers 1 to 3; [None] when none of them answers. *)
Definition beforeProbe (env : Env) (now : Z) (exePath processName : string)
    (st : State) : option (Completion * State) :=
  let pf := platform env in
  let ex := or_else (exeBase pf exePath) (lower processName) in
  match (if truthy ex then knownMap env !! ex else None) with
  | Some name => Some (Returns KNOWN (Str name), st)
  | None =>
  match (if truthy ex then held (byExe (cache st)) ex else None) with
  | Some name => Some (Returns CACHE name, st)
  | None =>
  match (if truthy exePath then held (byPath (cache st)) (lower exePath) else None) with
  | Some name => Some (Returns CACHE name, st)
  | None =>
  match (if truthy exePath && negb (size (precomputedPaths env) =? 0)%nat
         then get (precomputedPaths env) (lower exePath) else None) with
  | Some found => Some (Returns PRECOMPUTED (Str found), putCache pf now exePath found st)
  | None => None
  end end end end.

(** Whether tier 4 awaits a probe. *)
Definition awaitsProbe (env : Env) (exePath : string) : bool :=
  match platform env with
  | win32 => truthy exePath
  | darwin => truthy exePath && endsWith exePath ".app"
  | linux => truthy exePath
  | other_os => false
  end.

(** Tiers 4 to 7. *)
Definition afterProbe (env : Env) (os : Os) (now : Z)
    (exePath processName windowTitle : string) (st : State)
    : Completion * State :=
  let pf := platform env in
  let ex := or_else (exeBase pf exePath) (lower processName) in
  match metadata env os exePath with
  | Some nm => (Returns FILEDESC (Str nm), putCache pf now exePath nm st)
  | None =>
  if truthy windowTitle && (3 <=? String.length (trim windowTitle))%nat then
    let t := take 80 (trim windowTitle) in
    (Returns WINDOW_TITLE (Str t), putCache pf now (or_else exePath ex) t st)
  else
  match (if truthy exePath then steam_folder (slashes (lower exePath)) else None) with
  | Some folder =>
      match Uri.decodeURI folder with
      | Some decoded =>
          let name := deslug decoded in
          (Returns STEAM_PATH_HINT (Str name), putCache pf now exePath name st)
      | None => (Throws, st)
      end
  | None =>
  let titled := fallbackName ex in
  (Returns FALLBACK (Str titled), putCache pf now (or_else exePath ex) titled st)
  end end.

(** A resolver as [createNameResolver] leaves it, before [warmup] loads
    anything. *)
Definition init (now : Z) : State := mkState (mkCache ∅ ∅ now) false 0.

Definition no_os : Os := mkOs (fun _ => None) (fun _ => None) (fun _ => None).

(** The key under which a resolved name is stored: [exePath || ex]. *)
Definition cacheKey (pf : Platform) (exePath processName : string) : string :=
  or_else exePath (or_else (exeBase pf exePath) (lower processName)).

(** A burst of cache writes, oldest first: clock, path, name. *)
Definition putMany (pf : Platform) (writes : list (Z * string * string)) (st : State) : State :=
  foldl (fun acc w => putCache pf w.1.1 w.1.2 w.2 acc) st writes.

(** One call of [resolveDisplayName] with what it reads from outside. *)
Record Call := mkCall {
  c_os : Os;
  c_now : Z;
  c_exePath : string;
  c_processName : string;
  c_windowTitle : string
}.

Definition call (env : Env) (c : Call) (st : State) : Completion * State :=
  resolveDisplayName env (c_os c) (c_now c) (c_exePath c) (c_processName c)
    (c_windowTitle c) st.


End Resolver.

(** ** The presence worker: classifier and session state machine *)

Module Worker.

Import Js Tables.

Definition ACTIVE_STALE_MS : Z := 5000.
Definition HEARTBEAT_MS : Z := 5000.
Definition POLL_ACTIVE_MS : Z := 1000.

Definition exeBase (pf : Platform) (fpOrName : string) : string :=
  if truthy fpOrName then trim (toLowerCase (Path.basename pf fpOrName)) else "".

Definition hasGameHint (p : string) : bool :=
  let lp := toLowerCase p in
  existsb (fun rx => Rx.test rx lp) GAME_PATH_HINTS.

Inductive Category := game | geek | other.

Record Classification := mkClass {
  category : Category;
  confidence : Q
}.

Definition classify (base fullPath : string) : Classification :=
  let b := toLowerCase base in
  if bool_decide (is_Some (KNOWN_EXE_MAP !! b)) then mkClass game (9 # 10)%Q
  else if bool_decide (b ∈ KNOWN_GEEK_SET) then mkClass geek (8 # 10)%Q
  else if hasGameHint fullPath then mkClass game (6 # 10)%Q
  else mkClass other (3 # 10)%Q.

(** What [activeWin()] resolves to: [aw.owner] and [aw.title], any of
    which may be missing. *)
Record Owner := mkOwner {
  path : option string;
  name : option string;
  processId : option Z
}.

Record Window := mkWindow {
  owner : option Owner;
  title : option string
}.

(** One call of [activeWin()]: it throws, or resolves to a window or to
    nothing. *)
Inductive Probe :=
  | ProbeThrows
  | ProbeReturns (aw : option Window).

(** [x || null] *)
Definition or_null (x : string) : option string :=
  if truthy x then Some x else None.

(** The payload of [presence:update]; [extra] is always [null]. *)
Record Payload := mkPayload {
  p_source : string;
  p_pid : option Z;
  p_exePath : option string;
  p_exeName : option string;
  p_displayName : option Value;
  p_title : option string;
  p_app : option string;
  p_ts : Z;
  p_category : Category;
  p_confidence : Q
}.

Definition buildPresencePayload (pf : Platform) (ts : Z) (source exe title app : string)
    (pid : option Z) (displayName : Value) (cls : Classification) : Payload :=
  mkPayload source pid (or_null exe) (or_null (exeBase pf exe))
    (value_or_null displayName) (or_null title) (or_null app) ts
    (category cls) (confidence cls).

(** The messages sent to the parent process. *)
Inductive Event :=
  | Update (payload : Payload)
  | Heartbeat (payload : Payload)
  | Ended (payload : Payload) (endedAt : Z).

Record Session := mkSession {
  signature : string;
  pid : option Z;
  startedAt : Z;
  lastSeen : Z;
  payload : Payload
}.

(** The module-level variables [currentActive] and [lastHeartbeatAt],
    and the resolver instance. *)
Record State := mkState {
  currentActive : option Session;
  lastHeartbeatAt : Z;
  resolver : Resolver.State
}.

(** What one tick reads from outside: the window probe, the clock at the
    start of the tick, the clock when the cache is written and when the
    payload is built, and the metadata probes. *)
Record Tick := mkTick {
  probe : Probe;
  now : Z;
  cache_now : Z;
  payload_now : Z;
  os : Resolver.Os
}.

(** What one tick does: the state it leaves, the events it sent in
    order, and whether its [catch] logged an error. *)
Record Outcome := mkOutcome {
  after : State;
  sent : list Event;
  logged : bool
}.

Definition finishCurrentIfStale (now : Z) (st : State) : Outcome :=
  match currentActive st with
  | Some cur =>
      if ACTIVE_STALE_MS <? now - lastSeen cur
      then mkOutcome (mkState None (lastHeartbeatAt st) (resolver st))
             [Ended (payload cur) now] false
      else mkOutcome st [] false
  | None => mkOutcome st [] false
  end.

Definition owner_path (aw : Window) : string := or_empty (owner aw ≫= path).
Definition owner_name (aw : Window) : string := or_empty (owner aw ≫= name).
Definition owner_pid (aw : Window) : option Z := owner aw ≫= processId.

Definition win_exePath (aw : Window) : string :=
  or_else (owner_path aw) (or_else (owner_name aw) "").
Definition win_procName (aw : Window) : string := or_else (owner_name aw) "".
Definition win_title (aw : Window) : string := or_empty (title aw).
Definition win_base (pf : Platform) (aw : Window) : string :=
  exeBase pf (or_else (win_exePath aw) (win_procName aw)).

(** [[exePath, title, procName, processId ?? ''].join('|')] *)
Definition pid_text (p : option Z) : string :=
  match p with Some n => pretty n | None => "" end.

Definition signature_of (aw : Window) : string :=
  join "|" [win_exePath aw; win_title aw; win_procName aw; pid_text (owner_pid aw)].

Definition excluded (base : string) : bool :=
  bool_decide (base ∈ LAUNCHER_BASES) || bool_decide (base ∈ NON_GAME_BASES).

Definition is_game_or_geek (c : Category) : bool :=
  match c with game | geek => true | other => false end.

(** The snapshot passes both gates of [pollActive]. *)
Definition qualifies (pf : Platform) (aw : Window) : bool :=
  negb (excluded (win_base pf aw))
  && (is_game_or_geek (category (classify (win_base pf aw) (win_exePath aw)))
      || hasGameHint (win_exePath aw)).

Definition same_session (st : State) (sig : string) : bool :=
  match currentActive st with
  | Some cur => bool_decide (signature cur = sig)
  | None => false
  end.

Definition resolverEnv (pf : Platform) (index : gmap string string) : Resolver.Env :=
  Resolver.mkEnv KNOWN_EXE_MAP pf index.

(** One call of [pollActive] from its start to its end, no other call
    running in between. *)
Definition pollActive (pf : Platform) (index : gmap string string)
    (t : Tick) (st : State) : Outcome :=
  match probe t with
  | ProbeThrows => mkOutcome st [] true
  | ProbeReturns None => finishCurrentIfStale (now t) st
  | ProbeReturns (Some aw) =>
      let exePath := win_exePath aw in
      let procName := win_procName aw in
      let title := win_title aw in
      let base := exeBase pf (or_else exePath procName) in
      let cls := classify base exePath in
      if excluded base then finishCurrentIfStale (now t) st
      else if negb (is_game_or_geek (category cls) || hasGameHint exePath)
      then finishCurrentIfStale (now t) st
      else
        let sig := signature_of aw in
        match currentActive st with
        | Some cur =>
            if bool_decide (signature cur = sig) then
              (* the same window: refresh lastSeen, rare heartbeat *)
              let cur' := mkSession (signature cur) (pid cur) (startedAt cur)
                            (now t) (payload cur) in
              if HEARTBEAT_MS <=? now t - lastHeartbeatAt st
              then mkOutcome (mkState (Some cur') (now t) (resolver st))
                     [Heartbeat (payload cur)] false
              else mkOutcome (mkState (Some cur') (lastHeartbeatAt st) (resolver st))
                     [] false
            else
              (* end the previous session, then resolve the new name *)
              match Resolver.resolveDisplayName (resolverEnv pf index) (os t)
                      (cache_now t) exePath procName title (resolver st) with
              | (Resolver.Returns _ displayName, rs) =>
                  let pl := buildPresencePayload pf (payload_now t) "active"
                              exePath title procName (owner_pid aw) displayName cls in
                  mkOutcome
                    (mkState (Some (mkSession sig (owner_pid aw) (now t) (now t) pl))
                       (now t) rs)
                    [Ended (payload cur) (now t); Update pl] false
              | (Resolver.Throws, rs) =>
                  mkOutcome (mkState (currentActive st) (lastHeartbeatAt st) rs)
                    [Ended (payload cur) (now t)] true
              end
        | None =>
            match Resolver.resolveDisplayName (resolverEnv pf index) (os t)
                    (cache_now t) exePath procName title (resolver st) with
            | (Resolver.Returns _ displayName, rs) =>
                let pl := buildPresencePayload pf (payload_now t) "active"
                            exePath title procName (owner_pid aw) displayName cls in
                mkOutcome
                  (mkState (Some (mkSession sig (owner_pid aw) (now t) (now t) pl))
                     (now t) rs)
                  [Update pl] false
            | (Resolver.Throws, rs) =>
                mkOutcome (mkState None (lastHeartbeatAt st) rs) [] true
            end
        end
  end.

(** The worker before its first tick. *)
Definition init (now : Z) : State := mkState None 0 (Resolver.init now).

(** A run of ticks none of which overlaps another: each call of
    [pollActive] has finished when the timer fires the next one.  The
    final state, everything sent, in order, and whether some tick logged
    an error.  Calls that overlap are the subject of [Overlap] below. *)
Fixpoint run (pf : Platform) (index : gmap string string)
    (ts : list Tick) (st : State) : Outcome :=
  match ts with
  | [] => mkOutcome st [] false
  | t :: ts' =>
      let o := pollActive pf index t st in
      let o' := run pf index ts' (after o) in
      mkOutcome (after o') (sent o ++ sent o')%list (logged o || logged o')
  end.

(** A tick that carries no qualifying snapshot: the probe answered, with
    no window or with one that a gate turns away. *)
Definition quiet (pf : Platform) (t : Tick) : bool :=
  match probe t with
  | ProbeThrows => false
  | ProbeReturns None => true
  | ProbeReturns (Some aw) => negb (qualifies pf aw)
  end.

Global Instance Category_eq_dec : EqDecision Category.
Proof. solve_decision. Defined.

Global Instance Q_eq_dec : EqDecision Q.
Proof. solve_decision. Defined.

Global Instance Payload_eq_dec : EqDecision Payload.
Proof. solve_decision. Defined.

(** The lifecycle of the stream as the parent sees it: an update opens
    a session, heartbeats carry the payload of the open session, an
    ended event closes it.  [live] is the payload of the open session;
    the result is the open session at the end, or [None] when the
    stream breaks the lifecycle. *)
Definition lifecycle_step (live : option Payload) (e : Event)
    : option (option Payload) :=
  match e, live with
  | Update p, None => Some (Some p)
  | Heartbeat p, Some q => if decide (p = q) then Some live else None
  | Ended p _, Some q => if decide (p = q) then Some None else None
  | _, _ => None
  end.

Fixpoint lifecycle (live : option Payload) (evs : list Event)
    : option (option Payload) :=
  match evs with
  | [] => Some live
  | e :: evs' =>
      match lifecycle_step live e with
      | Some live' => lifecycle live' evs'
      | None => None
      end
  end.

(** The weaker reading of the lifecycle: no update is sent while an
    earlier update has not been followed by an ended event.  [open]
    tells that such an update is pending; the result is the flag at the
    end, or [None] when two updates follow each other. *)
Fixpoint updates_apart (open : bool) (evs : list Event) : option bool :=
  match evs with
  | [] => Some open
  | Update _ :: evs' => if open then None else updates_apart true evs'
  | Heartbeat _ :: evs' => updates_apart open evs'
  | Ended _ _ :: evs' => updates_apart false evs'
  end.

End Worker.

(** ** Calls of [pollActive] that overlap

    [setInterval] starts a call of [pollActive] every [POLL_ACTIVE_MS]
    whether or not the earlier ones have finished, and a call gives way
    to the others wherever it awaits: at the window query, inside the
    resolver at the metadata probe of tier 4, and at the resolver call
    itself.  Between two awaits a call runs alone. *)

Module Overlap.

Import Js Worker.

(** Where a call stands: at [await activeWin()] (before it, the call
    has only awaited [ensureDeps], which touches nothing the worker
    reads); inside the resolver at the await of tier 4; at
    [await resolver.resolveDisplayName(...)], the resolver call having
    settled; or at its end. *)
Inductive Stage :=
  | AwaitsWindow
  | AwaitsProbe (aw : Window)
  | AwaitsName (aw : Window) (c : Resolver.Completion)
  | Finished.

(** A call with what it reads from outside. *)
Record Flight := mkFlight {
  tick : Tick;
  stage : Stage
}.

(** The module variables and the resolver, the calls started so far,
    everything sent so far, and whether some call logged an error. *)
Record Machine := mkMachine {
  vars : State;
  flights : list Flight;
  stream : list Event;
  failed : bool
}.

(** [resolver.resolveDisplayName(...)] up to its first await, or to its
    end when it does not await. *)
Definition callResolver (pf : Platform) (index : gmap string string)
    (t : Tick) (aw : Window) (rs : Resolver.State) : Stage * Resolver.State :=
  let env := resolverEnv pf index in
  match Resolver.beforeProbe env (cache_now t) (win_exePath aw) (win_procName aw) rs with
  | Some (c, rs') => (AwaitsName aw c, rs')
  | None =>
      if Resolver.awaitsProbe env (win_exePath aw) then (AwaitsProbe aw, rs)
      else
        let r := Resolver.afterProbe env (os t) (cache_now t) (win_exePath aw)
                   (win_procName aw) (win_title aw) rs in
        (AwaitsName aw r.1, r.2)
  end.

(** The window query has answered: [pollActive] from
    [const now = Date.now()] to its end or to its next await. *)
Definition onWindow (pf : Platform) (index : gmap string string)
    (t : Tick) (st : State) : Outcome * Stage :=
  match probe t with
  | ProbeThrows => (mkOutcome st [] true, Finished)
  | ProbeReturns None => (finishCurrentIfStale (now t) st, Finished)
  | ProbeReturns (Some aw) =>
      let exePath := win_exePath aw in
      let procName := win_procName aw in
      let base := exeBase pf (or_else exePath procName) in
      let cls := classify base exePath in
      if excluded base then (finishCurrentIfStale (now t) st, Finished)
      else if negb (is_game_or_geek (category cls) || hasGameHint exePath)
      then (finishCurrentIfStale (now t) st, Finished)
      else
        let sig := signature_of aw in
        match currentActive st with
        | Some cur =>
            if bool_decide (signature cur = sig) then
              let cur' := mkSession (signature cur) (pid cur) (startedAt cur)
                            (now t) (payload cur) in
              if HEARTBEAT_MS <=? now t - lastHeartbeatAt st
              then (mkOutcome (mkState (Some cur') (now t) (resolver st))
                      [Heartbeat (payload cur)] false, Finished)
              else (mkOutcome (mkState (Some cur') (lastHeartbeatAt st) (resolver st))
                      [] false, Finished)
            else
              let r := callResolver pf index t aw (resolver st) in
              (mkOutcome (mkState (Some cur) (lastHeartbeatAt st) r.2)
                 [Ended (payload cur) (now t)] false, r.1)
        | None =>
            let r := callResolver pf index t aw (resolver st) in
            (mkOutcome (mkState None (lastHeartbeatAt st) r.2) [] false, r.1)
        end
  end.

(** The metadata probe has answered: the rest of the resolver call, on
    the cache as it is by now. *)
Definition onProbe (pf : Platform) (index : gmap string string)
    (t : Tick) (aw : Window) (st : State) : Outcome * Stage :=
  let r := Resolver.afterProbe (resolverEnv pf index) (os t) (cache_now t)
             (win_exePath aw) (win_procName aw) (win_title aw) (resolver st) in
  (mkOutcome (mkState (currentActive st) (lastHeartbeatAt st) r.2) [] false,
   AwaitsName aw r.1).

(** The resolver call has settled: the rest of [pollActive], or its
    [catch]. *)
Definition onName (pf : Platform) (t : Tick) (aw : Window)
    (c : Resolver.Completion) (st : State) : Outcome * Stage :=
  match c with
  | Resolver.Returns _ displayName =>
      let exePath := win_exePath aw in
      let procName := win_procName aw in
      let cls := classify (exeBase pf (or_else exePath procName)) exePath in
      let pl := buildPresencePayload pf (payload_now t) "active"
                  exePath (win_title aw) procName (owner_pid aw) displayName cls in
      (mkOutcome
         (mkState (Some (mkSession (signature_of aw) (owner_pid aw) (now t) (now t) pl))
            (now t) (resolver st))
         [Update pl] false, Finished)
  | Resolver.Throws => (mkOutcome st [] true, Finished)
  end.

(** A call runs from where it stands to its next await. *)
Definition advance (pf : Platform) (index : gmap string string)
    (c : Flight) (st : State) : Outcome * Stage :=
  match stage c with
  | AwaitsWindow => onWindow pf index (tick c) st
  | AwaitsProbe aw => onProbe pf index (tick c) aw st
  | AwaitsName aw r => onName pf (tick c) aw r st
  | Finished => (mkOutcome st [] false, Finished)
  end.

(** What the event loop does next: the timer fires and a call starts,
    up to its first await; or what the [i]-th call awaits arrives. *)
Inductive Action :=
  | Fire (t : Tick)
  | Resume (i : nat).

Definition step (pf : Platform) (index : gmap string string)
    (a : Action) (m : Machine) : Machine :=
  match a with
  | Fire t => mkMachine (vars m) (flights m ++ [mkFlight t AwaitsWindow]) (stream m) (failed m)
  | Resume i =>
      match flights m !! i with
      | Some c =>
          let r := advance pf index c (vars m) in
          mkMachine (after r.1) (<[i := mkFlight (tick c) r.2]> (flights m))
            (stream m ++ sent r.1) (failed m || logged r.1)
      | None => m
      end
  end.

Definition exec (pf : Platform) (index : gmap string string)
    (schedule : list Action) (m : Machine) : Machine :=
  foldl (fun acc a => step pf index a acc) m schedule.

(** The worker with no call started yet. *)
Definition boot (st : State) : Machine := mkMachine st [] [] false.

(** The schedule without overlap: each call is run to its end, through
    its three awaits, before the timer fires again.  [i] is the number
    of calls started before. *)
Fixpoint in_turn (i : nat) (ts : list Tick) : list Action :=
  match ts with
  | [] => []
  | t :: ts' => Fire t :: Resume i :: Resume i :: Resume i :: in_turn (S i) ts'
  end.

End Overlap.

(** ** Concrete inputs used below *)

Module Examples.

Import Js Resolver.

(** The resolver as the worker creates it on Windows, with an empty
    library index. *)
Definition env0 : Env := mkEnv Tables.KNOWN_EXE_MAP win32 ∅.

(** An installed game whose library folder carries a bare percent
    sign. *)
Definition juice : string := "C:\Steam\steamapps\common\100% Orange Juice\game.exe".

Definition foo_act1 : Call := mkCall no_os 1 "C:\Games\Foo\foo.exe" "foo" "Foo - Act 1".
Definition foo_elsewhere : Call :=
  mkCall (mkOs (fun _ => Some "Foo The Game") (fun _ => None) (fun _ => None))
    4 "D:\Backup\foo.exe" "foo" "Foo - Act 3".

(** Foreground windows and ticks of the worker. *)
Import Worker.

Definition window (exe app ttl : string) (p : Z) : Window :=
  mkWindow (Some (mkOwner (Some exe) (Some app) (Some p))) (Some ttl).

Definition tick_at (t : Z) (pr : Probe) : Tick :=
  mkTick pr t (t + 1) (t + 2) no_os.

Definition cs2 : Window := window "C:\Games\cs2.exe" "cs2" "Counter-Strike 2" 7.
Definition cs2_paused : Window :=
  window "C:\Games\cs2.exe" "cs2" "Counter-Strike 2 - Paused" 7.
Definition juice_window : Window := window juice "game" "" 8.

(** Two windows of one process that differ in title and in process
    name. *)
Definition quest_menu : Window := window "/opt/epic games/quest" "quest" "Quest|Menu" 7.
Definition quest_other : Window := window "/opt/epic games/quest" "Menu|quest" "Quest" 7.

Definition launcher_window : Window :=
  window "C:\Program Files (x86)\Epic Games\Launcher\Portal\Binaries\Win64\EpicGamesLauncher.exe"
    "EpicGamesLauncher" "Epic Games Launcher" 10.

Definition seen (w : Window) : Probe := ProbeReturns (Some w).
Definition nothing : Probe := ProbeReturns None.

(** A game the table does not know, in a Steam library: on Windows its
    name resolution awaits the file description. *)
Definition foo_steam : Window :=
  window "C:\Steam\steamapps\common\Foo\foo.exe" "foo" "Foo" 9.

(** Two calls for that window, the second started while the first
    awaits the file description: both find the worker idle. *)
Definition two_calls_overlapping : list Overlap.Action :=
  [Overlap.Fire (tick_at 0 (seen foo_steam)); Overlap.Resume 0;
   Overlap.Fire (tick_at 1000 (seen foo_steam)); Overlap.Resume 1;
   Overlap.Resume 0; Overlap.Resume 0; Overlap.Resume 1; Overlap.Resume 1].

(** The session the first tick opens for [cs2], and the worker holding
    it. *)
Definition cs2_session : Session :=
  mkSession (signature_of cs2) (Some 7) 0 0
    (buildPresencePayload win32 2 "active" "C:\Games\cs2.exe" "Counter-Strike 2"
       "cs2" (Some 7) "Counter-Strike 2" (mkClass game (9 # 10)%Q)).

Definition cs2_live : Worker.State :=
  after (pollActive win32 ∅ (tick_at 0 (seen cs2)) (Worker.init 0)).

End Examples.

(** ** The game library indexer and the desktop-entry probe *)

Module Scan.

Import Js.

(** An entry of [readdir(d, { withFileTypes: true })]. *)
Record Dirent := mkDirent {
  d_name : string;
  isDirectory : bool;
  isFile : bool
}.

(** A parsed VDF document: a text or a section of named values, in the
    order in which [Object.values] lists them. *)
#[warnings="-register-all"] Inductive Vdf :=
  | VStr (s : string)
  | VObj (fields : list (string * Vdf)).

(** The three fields [scanEpic] reads off a parsed [.item] manifest. *)
Record EpicItem := mkEpicItem {
  DisplayName : option string;
  InstallLocation : option string;
  LaunchExecutable : option string
}.

(** What the scans read from outside: the file system ([None] when the
    promise rejects), the two parsers ([None] when they throw; for an
    [.item] manifest the reading of its three fields is part of it), the
    home directory, and the functions [path.join] and [path.dirname]. *)
Record World := mkWorld {
  readFile : string -> option string;
  readdir : string -> option (list string);
  readdirTypes : string -> option (list Dirent);
  vdfParse : string -> option Vdf;
  jsonItem : string -> option EpicItem;
  HOME : string;
  join : list string -> string;
  dirname : string -> string
}.

(** *** [findExecutablesWindows] *)

Definition is_redist (name : string) : bool :=
  String.eqb (toLowerCase name) "redist"
  || String.eqb (toLowerCase name) "_commonredist".

Definition is_exe (name : string) : bool := endsWith (toLowerCase name) ".exe".

(** [dfs(d, lvl)]; the first argument is [lvl + 1], so that [0] stands
    for [lvl < 0]. *)
Fixpoint exe_dfs (w : World) (lvl1 : nat) (d : string) : list string :=
  match lvl1 with
  | O => []
  | S lvl =>
      match readdirTypes w d with
      | None => []
      | Some entries =>
          flat_map
            (fun e =>
               let p := join w [d; d_name e] in
               if isDirectory e then
                 if is_redist (d_name e) then [] else exe_dfs w lvl p
               else if isFile e && is_exe (d_name e) then [p]
               else [])
            entries
      end
  end.

Definition findExecutablesWindows (w : World) (dir : string) (depth : nat)
    : list string :=
  exe_dfs w (S depth) dir.

(** *** [findAppBundleMac] *)

Definition is_app (name : string) : bool := endsWith name ".app".

(** The loop of [dfs] over the entries of [d]; [deeper] is [dfs] one
    level down.  [found] is the variable of that name, the empty string
    standing for [null] (the source only tests its truthiness). *)
Fixpoint app_loop (w : World) (deeper : string -> string -> string)
    (d : string) (es : list Dirent) (found : string) : string :=
  match es with
  | [] => found
  | e :: es' =>
      let p := join w [d; d_name e] in
      if isDirectory e then
        if is_app (d_name e) then p
        else app_loop w deeper d es' (deeper p found)
      else app_loop w deeper d es' found
  end.

Fixpoint app_dfs (w : World) (lvl1 : nat) (d : string) (found : string) : string :=
  match lvl1 with
  | O => found
  | S lvl =>
      if truthy found then found
      else
        match readdirTypes w d with
        | None => found
        | Some entries => app_loop w (app_dfs w lvl) d entries found
        end
  end.

Definition findAppBundleMac (w : World) (dir : string) (depth : nat) : string :=
  app_dfs w (S depth) dir "".

(** *** [scanEpic] *)

Definition manifestDir : string := "C:\ProgramData\Epic\EpicGamesLauncher\Data\Manifests".

(** The body of the loop over the manifest files: the entry one file
    contributes, if any. *)
Definition epic_entry (w : World) (f : string) : option (string * string) :=
  if negb (endsWith (toLowerCase f) ".item") then None
  else
    match readFile w (join w [manifestDir; f]) with
    | None => None
    | Some t =>
        match jsonItem w t with
        | None => None
        | Some j =>
            let name := or_empty (DisplayName j) in
            let install := or_empty (InstallLocation j) in
            let exeRel := or_empty (LaunchExecutable j) in
            if negb (truthy name) || negb (truthy install) || negb (truthy exeRel)
            then None
            else Some (toLowerCase (join w [install; exeRel]), name)
        end
    end.

(** [result.set(k, v)] for each entry in turn. *)
Definition set_all (entries : list (string * string)) (result : gmap string string)
    : gmap string string :=
  foldl (fun acc kv => <[kv.1 := kv.2]> acc) result entries.

Definition scanEpic (w : World) (pf : Platform) : gmap string string :=
  match pf with
  | win32 =>
      match readdir w manifestDir with
      | None => ∅
      | Some files => set_all (omap (epic_entry w) files) ∅
      end
  | _ => ∅
  end.

(** *** [scanSteam] *)

Definition steamCandidates (w : World) (pf : Platform) : list string :=
  match pf with
  | win32 =>
      ["C:\Program Files (x86)\Steam\steamapps";
       "C:\Program Files\Steam\steamapps";
       join w [HOME w; "AppData"; "Local"; "Steam"; "steamapps"]]
  | darwin =>
      [join w [HOME w; "Library"; "Application Support"; "Steam"; "steamapps"]]
  | _ =>
      [join w [HOME w; ".local"; "share"; "Steam"; "steamapps"];
       "/usr/local/share/Steam/steamapps"]
  end.

(** [v.k] *)
Fixpoint field (fields : list (string * Vdf)) (k : string) : option Vdf :=
  match fields with
  | [] => None
  | (k', v) :: rest => if String.eqb k' k then Some v else field rest k
  end.

Definition prop (v : Vdf) (k : string) : option Vdf :=
  match v with
  | VObj fields => field fields k
  | VStr _ => None
  end.

Definition vtruthy (v : Vdf) : bool :=
  match v with
  | VStr s => truthy s
  | VObj _ => true
  end.

Fixpoint chars (s : string) : list string :=
  match s with
  | EmptyString => []
  | String c r => String c EmptyString :: chars r
  end.

(** [Object.values(x || {})] *)
Definition values (x : option Vdf) : list Vdf :=
  match x with
  | Some (VObj fields) => map snd fields
  | Some (VStr s) => map VStr (chars s)
  | None => []
  end.

(** [v.path || v] *)
Definition path_or_self (v : Vdf) : Vdf :=
  match prop v "path" with
  | Some x => if vtruthy x then x else v
  | None => v
  end.

(** [libs.map(p => path.join(p, 'steamapps'))]: [path.join] throws a
    TypeError on a section, and the whole candidate is given up. *)
Fixpoint lib_dirs (w : World) (libs : list Vdf) : option (list string) :=
  match libs with
  | [] => Some []
  | VStr s :: rest => cons (join w [s; "steamapps"]) <$> lib_dirs w rest
  | VObj _ :: _ => None
  end.

(** A field read as a text; a missing field, an empty text and (for
    what [scanSteam] does with it) a section all fail the test
    [!name || !installdir] or the [path.join] that follows.  A manifest
    whose [name] is a section is outside the model. *)
Definition text (x : option Vdf) : string :=
  match x with
  | Some (VStr s) => s
  | _ => ""
  end.

(** [exes[0] || null], the empty string standing for [null]. *)
Definition first_or_null (l : list string) : string :=
  match l with
  | [] => ""
  | p :: _ => p
  end.

(** The body of the loop over the files of a library directory. *)
Definition steam_entry (w : World) (pf : Platform) (dir f : string)
    : option (string * string) :=
  if negb (startsWith f "appmanifest_") || negb (endsWith f ".acf") then None
  else
    match readFile w (join w [dir; f]) with
    | None => None
    | Some t =>
        match vdfParse w t with
        | None => None
        | Some doc =>
            let man := match prop doc "AppState" with
                       | Some m => if vtruthy m then m else VObj []
                       | None => VObj []
                       end in
            let name := text (prop man "name") in
            let installdir := text (prop man "installdir") in
            if negb (truthy name) || negb (truthy installdir) then None
            else
              let commonDir := join w [dir; "common"; installdir] in
              let foundExe :=
                match pf with
                | win32 => first_or_null (findExecutablesWindows w commonDir 2)
                | darwin => findAppBundleMac w commonDir 2
                | _ => ""
                end in
              if truthy foundExe then Some (toLowerCase foundExe, name) else None
        end
    end.

(** The entries of one library directory. *)
Definition steam_dir (w : World) (pf : Platform) (dir : string)
    : list (string * string) :=
  match readdir w dir with
  | None => []
  | Some files => omap (steam_entry w pf dir) files
  end.

(** The entries of one candidate root. *)
Definition steam_root (w : World) (pf : Platform) (sap : string)
    : list (string * string) :=
  let libPath := join w [sap; "libraryfolders.vdf"] in
  match readFile w libPath with
  | None => []
  | Some txt =>
      match vdfParse w txt with
      | None => []
      | Some jf =>
          let libs := filter (fun v => Is_true (vtruthy v))
                        (map path_or_self
                           (values (match prop jf "libraryfolders" with
                                    | Some x => if vtruthy x then Some x else None
                                    | None => None
                                    end))) in
          match lib_dirs w libs with
          | None => []
          | Some dirs => flat_map (steam_dir w pf) (dirname w libPath :: dirs)
          end
      end
  end.

Definition scanSteam (w : World) (pf : Platform) : gmap string string :=
  set_all (flat_map (steam_root w pf) (steamCandidates w pf)) ∅.

(** *** [warmup]: the index *)

(** The entries of the Steam scan are copied into [precomputedPaths],
    then those of the Epic scan. *)
Definition warmup (w : World) (pf : Platform) : gmap string string :=
  set_all (map_to_list (scanEpic w pf))
    (set_all (map_to_list (scanSteam w pf)) ∅).

(** *** [linuxDesktopName] *)

Fixpoint includes (s sub : string) : bool :=
  startsWith s sub
  || match s with
     | EmptyString => false
     | String _ r => includes r sub
     end.

(** [t.split('\n')] *)
Fixpoint split_lines (s : string) : list string :=
  match s with
  | EmptyString => [EmptyString]
  | String c r =>
      if (code c =? 10)%N then EmptyString :: split_lines r
      else
        match split_lines r with
        | l :: ls => String c l :: ls
        | [] => [String c EmptyString]
        end
  end.

(** [s.slice(n)] *)
Fixpoint drop (n : nat) (s : string) {struct s} : string :=
  match s, n with
  | String _ r, S k => drop k r
  | _, _ => s
  end.

(** The first line that starts with [Name=]. *)
Definition name_line (t : string) : option string :=
  List.find (fun l => startsWith l "Name=") (split_lines t).

(** What one file of a directory answers: [Some name] makes the probe
    return [name], [None] lets it go on. *)
Definition desktop_entry (w : World) (base dir f : string) : option string :=
  if negb (endsWith f ".desktop") then None
  else
    match readFile w (join w [dir; f]) with
    | None => None
    | Some t =>
        if negb (includes t "Name=") || negb (includes t "Exec=") then None
        else if negb (includes (toLowerCase t) (toLowerCase base)) then None
        else
          match name_line t with
          | Some nameLine => Some (trim (drop 5 nameLine))
          | None => None
          end
    end.

(** The first answer of a list of attempts. *)
Fixpoint first_answer {A} (attempt : A -> option string) (l : list A)
    : option string :=
  match l with
  | [] => None
  | x :: rest =>
      match attempt x with
      | Some r => Some r
      | None => first_answer attempt rest
      end
  end.

Definition desktop_dir (w : World) (base dir : string) : option string :=
  match readdir w dir with
  | None => None
  | Some files => first_answer (desktop_entry w base dir) files
  end.

Definition desktopDirs (w : World) : list string :=
  ["/usr/share/applications";
   "/usr/local/share/applications";
   join w [HOME w; ".local"; "share"; "applications"]].

Definition linuxDesktopName (w : World) (pf : Platform) (exePath : string)
    : option string :=
  first_answer (desktop_dir w (Path.basename pf exePath)) (desktopDirs w).

(** *** Walks in the directory tree, for the statements *)

(** The chain of names below a directory: [join(join(d, a), b) ...]. *)
Definition chain (w : World) (d : string) (names : list string) : string :=
  foldl (fun acc n => join w [acc; n]) d names.

(** [dirs] is a chain of listed directories below [d], none of which
    the walk turns away ([stop] is the test for that). *)
Fixpoint descends (w : World) (stop : string -> bool) (d : string)
    (dirs : list string) : Prop :=
  match dirs with
  | [] => True
  | x :: rest =>
      (∃ e es, readdirTypes w d = Some es ∧ e ∈ es ∧ d_name e = x
               ∧ isDirectory e = true ∧ stop x = false)
      ∧ descends w stop (join w [d; x]) rest
  end.

(** [p] is a listed file with an [.exe] name, [dirs] below [dir]. *)
Definition exe_at (w : World) (dir : string) (dirs : list string) (p : string)
    : Prop :=
  descends w is_redist dir dirs
  ∧ ∃ e es, readdirTypes w (chain w dir dirs) = Some es ∧ e ∈ es
            ∧ isDirectory e = false ∧ isFile e = true
            ∧ is_exe (d_name e) = true
            ∧ p = join w [chain w dir dirs; d_name e].

(** [p] is a listed directory with an [.app] name, [dirs] below [dir]. *)
Definition app_at (w : World) (dir : string) (dirs : list string) (p : string)
    : Prop :=
  descends w is_app dir dirs
  ∧ ∃ e es, readdirTypes w (chain w dir dirs) = Some es ∧ e ∈ es
            ∧ isDirectory e = true ∧ is_app (d_name e) = true
            ∧ p = join w [chain w dir dirs; d_name e].

End Scan.

(** ** Small file systems used below *)

Module Worlds.

Import Js Scan.

(** [path.join] on segments that need no normalisation; like
    [path.join] it never yields the empty string. *)
Definition join_with (sep : string) (l : list string) : string :=
  let s := Js.join sep l in
  if truthy s then s else ".".

(** [path.dirname] of a path with no trailing separator. *)
Definition parent (sep : ascii) (p : string) : string :=
  Js.rev (Js.slice1 (Path.drop_while (fun c => negb (Ascii.eqb c sep)) (Js.rev p))).

Definition table {A} (rows : list (string * A)) (k : string) : option A :=
  snd <$> List.find (fun row => String.eqb row.1 k) rows.

Definition dir (n : string) : Dirent := mkDirent n true false.
Definition file (n : string) : Dirent := mkDirent n false true.

Definition steamapps : string := "C:\Program Files (x86)\Steam\steamapps".

(** A Windows machine with one Steam game and one Epic game. *)
Definition windows : World :=
  mkWorld
    (table
       [(steamapps ++ "\libraryfolders.vdf", "libraryfolders");
        (steamapps ++ "\appmanifest_10.acf", "appmanifest 10");
        (steamapps ++ "\appmanifest_11.acf", "broken");
        (manifestDir ++ "\sample.item", "epic sample");
        (manifestDir ++ "\broken.item", "{")])
    (table
       [(steamapps, ["appmanifest_10.acf"; "appmanifest_11.acf"; "libraryfolders.vdf"]);
        (manifestDir, ["broken.item"; "sample.item"; "notes.txt"])])
    (table
       [(steamapps ++ "\common\SampleGame",
         [dir "_CommonRedist"; dir "bin"; file "readme.txt"]);
        (steamapps ++ "\common\SampleGame\_CommonRedist", [file "vcredist.exe"]);
        (steamapps ++ "\common\SampleGame\bin", [file "Sample.EXE"])])
    (table
       [("libraryfolders",
         VObj [("libraryfolders",
                VObj [("0", VObj [("path", VStr "D:\SteamLibrary")])])]);
        ("appmanifest 10",
         VObj [("AppState",
                VObj [("name", VStr "Sample Game");
                      ("installdir", VStr "SampleGame")])])])
    (table
       [("epic sample",
         mkEpicItem (Some "Epic Sample") (Some "D:\Epic\Sample") (Some "Sample.exe"))])
    "C:\Users\u"
    (join_with "\")
    (parent backslash).

Definition sample_exe : string := steamapps ++ "\common\SampleGame\bin\Sample.EXE".

(** A macOS install folder with a bundle of its own and one nested in
    a folder listed before it. *)
Definition mac : World :=
  mkWorld (fun _ => None) (fun _ => None)
    (table
       [("/Games/Sample", [dir "Extras"; file "notes.txt"; dir "Launcher.app"]);
        ("/Games/Sample/Extras", [dir "Game.app"])])
    (fun _ => None) (fun _ => None) "/Users/u" (join_with "/") (parent slash).

Definition nl : string := String (ascii_of_N 10) EmptyString.

Definition foo_desktop : string :=
  "[Desktop Entry]" ++ nl ++ "GenericName=Game" ++ nl
  ++ "Name=  Foo Quest " ++ nl ++ "Exec=/opt/foo/Foo-Bin" ++ nl.

(** A Linux machine with two desktop entries. *)
Definition linux_box : World :=
  mkWorld
    (table
       [("/usr/share/applications/editor.desktop",
         "Name=Editor" ++ nl ++ "Exec=/usr/bin/editor");
        ("/usr/share/applications/foo.desktop", foo_desktop)])
    (table
       [("/usr/share/applications", ["README"; "editor.desktop"; "foo.desktop"])])
    (fun _ => None) (fun _ => None) (fun _ => None) "/home/u"
    (join_with "/") (parent slash).

End Worlds.

(** ** The stream with its clock *)

Module Timeline.

Import Worker.

(** Everything a run sends, each event with the [now] of its tick. *)
Fixpoint timed_run (pf : Platform) (index : gmap string string)
    (ts : list Tick) (st : State) : list (Z * Event) :=
  match ts with
  | [] => []
  | t :: ts' =>
      let o := pollActive pf index t st in
      (map (pair (now t)) (sent o) ++ timed_run pf index ts' (after o))%list
  end.

(** Heartbeats keep their distance: each one comes at least
    [HEARTBEAT_MS] after the update or heartbeat before it.  [last] is
    the instant of that earlier event. *)
Fixpoint paced (last : Z) (evs : list (Z * Event)) : bool :=
  match evs with
  | [] => true
  | (t, Update _) :: evs' => paced t evs'
  | (t, Heartbeat _) :: evs' => (HEARTBEAT_MS <=? t - last) && paced t evs'
  | (_, Ended _ _) :: evs' => paced last evs'
  end.

(** The instant of the last update or heartbeat of a stream. *)
Fixpoint last_beat (last : Z) (evs : list (Z * Event)) : Z :=
  match evs with
  | [] => last
  | (t, Update _) :: evs' => last_beat t evs'
  | (t, Heartbeat _) :: evs' => last_beat t evs'
  | (_, Ended _ _) :: evs' => last_beat last evs'
  end.

End Timeline.

(** ** Text predicates used in statements *)

Module Text.

(** The character occurs in the string. *)
Fixpoint mentions (c : ascii) (s : string) : bool :=
  match s with
  | EmptyString => false
  | String x r => Ascii.eqb x c || mentions c r
  end.

Definition percent : ascii := ascii_of_N 37.

End Text.

(** * Properties of the resolver *)

Section StringFacts.

Import Js.

Lemma truthy_true (s : string) : truthy s = true ↔ s ≠ "".
Proof. destruct s; simpl; split; intros; congruence. Qed.

Lemma truthy_false (s : string) : truthy s = false ↔ s = "".
Proof. destruct s; simpl; split; intros; congruence. Qed.

Lemma or_else_truthy a b : truthy a = true → or_else a b = a.
Proof. unfold or_else. by intros ->. Qed.

Lemma or_else_falsy a b : truthy a = false → or_else a b = b.
Proof. unfold or_else. by intros ->. Qed.

Lemma map_chars_truthy f s : truthy (map_chars f s) = truthy s.
Proof. by destruct s. Qed.

Lemma lower_truthy s : truthy (toLowerCase s) = truthy s.
Proof. apply map_chars_truthy. Qed.

Lemma take_truthy n s : (0 < n)%nat → truthy (take n s) = truthy s.
Proof. destruct s, n; simpl; intros; try lia; done. Qed.

Lemma long_truthy s : (3 <=? String.length s)%nat = true → truthy s = true.
Proof. by destruct s. Qed.

Lemma deslug_truthy s : truthy (deslug s) = truthy s.
Proof.
  destruct s as [|c r]; [done|].
  unfold deslug; simpl. by destruct (is_slug c).
Qed.

Lemma append_truthy a b : truthy a = true → truthy (a ++ b) = true.
Proof. by destruct a. Qed.

End StringFacts.

Section UriFacts.

Import Js Uri.

Lemma escape_truthy s out used : escape s = Some (out, used) → truthy out = true.
Proof.
  unfold escape. intros H.
  repeat case_match; simplify_eq; done.
Qed.

(** [decodeURI] never turns a text into the empty string. *)
Lemma decodeURI_truthy s r :
  decodeURI s = Some r → truthy s = true → truthy r = true.
Proof.
  unfold decodeURI. destruct s as [|c s']; [done|]. simpl.
  intros H _. case_match.
  - destruct (escape s') as [[out used]|] eqn:He; [|done].
    destruct (decode used s'); simplify_eq/=.
    apply append_truthy. by eapply escape_truthy.
  - by destruct (decode 0 s'); simplify_eq/=.
Qed.

End UriFacts.

Section ObjectFacts.

Import Js.

Implicit Types o : gmap string string.

Lemma read_Str o k s : read o k = Some (Str s) ↔ o !! k = Some s.
Proof.
  unfold read. destruct (o !! k) as [v|]; [|by case_bool_decide].
  split; by intros [= ->].
Qed.

Lemma read_own o k v : o !! k = Some v → read o k = Some (Str v).
Proof. apply read_Str. Qed.

Lemma held_own o k v :
  o !! k = Some v → truthy v = true → Resolver.held o k = Some (Str v).
Proof. intros Ho Hv. unfold Resolver.held. rewrite (read_own _ _ _ Ho). simpl. by rewrite Hv. Qed.

Lemma held_Some o k v :
  Resolver.held o k = Some v → read o k = Some v ∧ is_truthy v = true.
Proof.
  unfold Resolver.held. destruct (read o k) as [x|]; [|done].
  destruct (is_truthy x) eqn:E; [|done]. by intros [= <-].
Qed.

Lemma proto_is_inherited : "__proto__" ∈ prototype_names.
Proof. apply (bool_decide_unpack _). vm_compute. exact I. Qed.

(** A name whose read is falsy can be assigned to. *)
Lemma held_None_assignable o k : Resolver.held o k = None → assignable o k = true.
Proof.
  unfold Resolver.held, read, assignable.
  destruct (o !! k) as [v|] eqn:Ho.
  - intros _. rewrite bool_decide_eq_true_2 by by eexists. apply orb_true_r.
  - case_bool_decide as Hk; [done|]. intros _.
    destruct (String.eqb_spec k "__proto__") as [->|]; [|done].
    exfalso. apply Hk, proto_is_inherited.
Qed.

Lemma assign_lookup k v o : assignable o k = true → assign k v o !! k = Some v.
Proof. unfold assign. intros ->. apply lookup_insert_eq. Qed.


Lemma assign_ignored k v o : assignable o k = false → assign k v o = o.
Proof. unfold assign. by intros ->. Qed.

Lemma assignable_false o k :
  assignable o k = false ↔ k = "__proto__" ∧ o !! k = None.
Proof.
  unfold assignable. rewrite orb_false_iff, negb_false_iff, bool_decide_eq_false.
  rewrite String.eqb_eq, <- eq_None_not_Some. done.
Qed.

Lemma dom_assign k v o : dom o ⊆ dom (assign k v o).
Proof. unfold assign. destruct (assignable o k); [|done]. rewrite dom_insert_L. set_solver. Qed.

End ObjectFacts.

Section CacheFacts.

Import Js Resolver.

Variable pf : Platform.

Lemma saveCacheSoon_cache st : cache (saveCacheSoon st) = cache st.
Proof. unfold saveCacheSoon. by destruct (timer st). Qed.

Lemma saveCacheSoon_scheduled st :
  scheduled (saveCacheSoon st) = (scheduled st + if timer st then 0 else 1)%nat.
Proof. unfold saveCacheSoon. destruct (timer st); simpl; lia. Qed.

Lemma saveCacheSoon_timer st : timer (saveCacheSoon st) = true.
Proof. unfold saveCacheSoon. by destruct (timer st) eqn:E. Qed.

Ltac putCache_cases :=
  unfold putCache;
  repeat match goal with
    | |- context [truthy ?s] => destruct (truthy s) eqn:?
    | |- context [bool_decide ?P] => destruct (bool_decide_reflect P)
    end; simpl; rewrite ?saveCacheSoon_cache; simpl.

(** After [putCache(p, name)] the base-name key holds [name], provided
    the assignment to it takes effect. *)
Lemma putCache_byExe now p name st :
  truthy name = true → truthy (exeBase pf p) = true →
  assignable (byExe (cache st)) (exeBase pf p) = true →
  byExe (cache (putCache pf now p name st)) !! exeBase pf p = Some name.
Proof.
  intros Hn Hex Ha. putCache_cases; try congruence;
    first [by apply assign_lookup | by apply read_Str].
Qed.

(** After [putCache(p, name)] the lowercased path key holds [name],
    with the same proviso. *)
Lemma putCache_byPath now p name st :
  truthy name = true → truthy p = true →
  assignable (byPath (cache st)) (lower p) = true →
  byPath (cache (putCache pf now p name st)) !! lower p = Some name.
Proof.
  intros Hn Hp Ha. assert (truthy (lower p) = true) by by rewrite lower_truthy.
  putCache_cases; try congruence;
    first [by apply assign_lookup | by apply read_Str].
Qed.


(** An assignment that the inherited setter swallows leaves the object
    as it was, and the write counts as a change all the same. *)
Lemma putCache_byExe_ignored now p name st :
  truthy name = true → truthy (exeBase pf p) = true →
  assignable (byExe (cache st)) (exeBase pf p) = false →
  byExe (cache (putCache pf now p name st)) = byExe (cache st)
  ∧ updatedAt (cache (putCache pf now p name st)) = now
  ∧ timer (putCache pf now p name st) = true.
Proof.
  intros Hn Hex Ha. pose proof Ha as [Hk Ho]%assignable_false.
  unfold putCache. rewrite Hn, Hex. cbn [negb andb]. cbv zeta.
  rewrite bool_decide_eq_false_2; last first.
  { rewrite read_Str. congruence. }
  cbn [negb orb]. rewrite saveCacheSoon_cache, saveCacheSoon_timer. cbn.
  by rewrite assign_ignored.
Qed.

(** A key that cannot be assigned to leaves its object as it was. *)
Lemma putCache_byExe_unassignable now p name st :
  assignable (byExe (cache st)) (exeBase pf p) = false →
  byExe (cache (putCache pf now p name st)) = byExe (cache st).
Proof.
  intros Ha. unfold putCache. cbv zeta. rewrite (assign_ignored _ _ _ Ha).
  repeat match goal with
    | |- context [if ?b then _ else _] => destruct b
    end; rewrite ?saveCacheSoon_cache; done.
Qed.

Lemma putCache_byPath_unassignable now p name st :
  assignable (byPath (cache st)) (lower p) = false →
  byPath (cache (putCache pf now p name st)) = byPath (cache st).
Proof.
  intros Ha. unfold putCache. cbv zeta. rewrite (assign_ignored _ _ _ Ha).
  repeat match goal with
    | |- context [if ?b then _ else _] => destruct b
    end; rewrite ?saveCacheSoon_cache; done.
Qed.

(** A flush is scheduled only when none is pending. *)
Lemma putCache_scheduled now p name st :
  (scheduled (putCache pf now p name st)
   ≤ scheduled st + if timer st then 0 else 1)%nat.
Proof.
  unfold putCache.
  repeat match goal with
    | |- context [if ?b then _ else _] => destruct b
    end; rewrite ?saveCacheSoon_scheduled; simpl; destruct (timer st); lia.
Qed.

Lemma putCache_timer now p name st :
  timer st = true → timer (putCache pf now p name st) = true.
Proof.
  intros Ht. unfold putCache.
  repeat match goal with
    | |- context [if ?b then _ else _] => destruct b
    end; rewrite ?saveCacheSoon_timer; done.
Qed.

(** A write of a name that both keys already hold touches nothing. *)
Lemma putCache_noop now p name st :
  (truthy (exeBase pf p) = true → byExe (cache st) !! exeBase pf p = Some name) →
  (truthy p = true → byPath (cache st) !! lower p = Some name) →
  putCache pf now p name st = st.
Proof.
  intros H1 H2. unfold putCache.
  destruct (truthy name); [|done]. simpl.
  destruct (truthy (exeBase pf p)); destruct (truthy p); simpl;
    rewrite ?(read_own _ _ _ (H1 eq_refl)), ?(read_own _ _ _ (H2 eq_refl));
    repeat case_bool_decide; simpl; try done;
    rewrite ?andb_false_r; done.
Qed.

(** The second write of a pair changes nothing, when the assignments of
    the first took effect. *)
Lemma putCache_again now1 now2 p name st :
  (truthy (exeBase pf p) = true → assignable (byExe (cache st)) (exeBase pf p) = true) →
  (truthy p = true → assignable (byPath (cache st)) (lower p) = true) →
  putCache pf now2 p name (putCache pf now1 p name st)
  = putCache pf now1 p name st.
Proof.
  intros H1 H2.
  destruct (truthy name) eqn:Hn; [|by unfold putCache; rewrite Hn].
  apply putCache_noop; intros;
    first [by apply putCache_byExe; auto | by apply putCache_byPath; auto].
Qed.

(** The same when the flush ran between the two writes. *)
Lemma putCache_again_after_flush now1 now2 write_ok p name st :
  (truthy (exeBase pf p) = true → assignable (byExe (cache st)) (exeBase pf p) = true) →
  (truthy p = true → assignable (byPath (cache st)) (lower p) = true) →
  let flushed := (timerFires write_ok (putCache pf now1 p name st)).1 in
  putCache pf now2 p name flushed = flushed.
Proof.
  intros H1 H2.
  destruct (truthy name) eqn:Hn; [|by unfold putCache; rewrite Hn].
  apply putCache_noop; simpl; intros;
    first [by apply putCache_byExe; auto | by apply putCache_byPath; auto].
Qed.

Lemma putMany_scheduled writes st :
  (scheduled (putMany pf writes st)
   ≤ scheduled st + if timer st then 0 else 1)%nat.
Proof.
  revert st. induction writes as [|[[now p] name] ws IH]; intros st; simpl.
  { destruct (timer st); lia. }
  etrans; [apply IH|]. simpl.
  pose proof (putCache_scheduled now p name st) as Hs.
  destruct (timer st) eqn:Ht.
  - rewrite (putCache_timer _ _ _ _ Ht). lia.
  - destruct (timer (putCache pf now p name st)) eqn:Ht'; [lia|].
    (* nothing was scheduled by the first write *)
    assert (scheduled (putCache pf now p name st) = scheduled st) as ->; [|lia].
    revert Ht'. unfold putCache.
    repeat match goal with
      | |- context [if ?b then _ else _] => destruct b
      end; rewrite ?saveCacheSoon_timer; done.
Qed.

End CacheFacts.

Section TierFacts.

Import Js Resolver.

Lemma cacheKey_path pf p pn : truthy p = true → cacheKey pf p pn = p.
Proof. unfold cacheKey, or_else. by intros ->. Qed.

Lemma get_Some m k v : get m k = Some v → m !! k = Some v ∧ truthy v = true.
Proof. unfold get. intros H. repeat case_match; simplify_eq; done. Qed.

Lemma get_lookup m k v : m !! k = Some v → truthy v = true → get m k = Some v.
Proof. unfold get. by intros -> ->. Qed.

Lemma metadata_truthy env os p nm : metadata env os p = Some nm → truthy nm = true.
Proof.
  unfold metadata. intros H.
  repeat case_match; simplify_eq; try done;
    match goal with H : _ && _ = true |- _ => by apply andb_true_iff in H as [? _] end.
Qed.

Lemma metadata_path env os p nm : metadata env os p = Some nm → truthy p = true.
Proof.
  unfold metadata. intros H.
  repeat case_match; simplify_eq; try done.
  match goal with H : _ && _ = true |- _ => by apply andb_true_iff in H as [? _] end.
Qed.

Lemma fallbackName_truthy ex : truthy (fallbackName ex) = true.
Proof.
  unfold fallbackName. destruct (strip_suffix ".exe" ex) as [|c r]; done.
Qed.

Lemma folder_at_truthy s folder : folder_at s = Some folder → truthy folder = true.
Proof.
  unfold folder_at. destruct (strip_prefix _ s) as [rest|]; [|done].
  simpl. destruct (truthy (Path.take_while not_slash rest)) eqn:E; [|done].
  by intros [= <-].
Qed.

Lemma steam_folder_truthy s folder : steam_folder s = Some folder → truthy folder = true.
Proof.
  induction s as [|c r IH]; cbn [steam_folder];
    destruct (folder_at _) eqn:E; intros H; simplify_eq;
    eauto using folder_at_truthy.
Qed.

End TierFacts.

(** One step down the chain of tiers in a hypothesis about a call. *)
Ltac next_tier H :=
  match type of H with
  | context [match ?x with Some _ => _ | None => _ end] => destruct x eqn:?
  | context [if ?b then _ else _] => destruct b eqn:?
  end.

Ltac tiers H :=
  unfold Resolver.resolveDisplayName in H; cbv zeta in H; repeat next_tier H.

Ltac guards :=
  repeat match goal with
    | H : (if ?b then _ else None) = Some _ |- _ =>
        destruct b eqn:?; [|discriminate]
    | H : _ && _ = true |- _ => apply andb_true_iff in H as [? ?]
    | H : Resolver.get _ _ = Some _ |- _ => apply get_Some in H as [? ?]
    | H : Resolver.held _ _ = Some _ |- _ => apply held_Some in H as [? ?]
    end.

Section ResolverFacts.

Import Js Resolver.

(** How a call that returns is related to the state it leaves: the two
    table tiers write nothing; every later tier returns a non-empty
    string and stores it under [cacheKey], the table and the cache
    having had no answer. *)
Lemma resolveDisplayName_returns env os now p pn title st tier n st' :
  resolveDisplayName env os now p pn title st = (Returns tier n, st') →
  match tier with
  | KNOWN | CACHE => st' = st
  | _ =>
      let ex := or_else (exeBase (platform env) p) (lower pn) in
      (∃ s, n = Str s ∧ truthy s = true
            ∧ st' = putCache (platform env) now (cacheKey (platform env) p pn) s st)
      ∧ (if truthy ex then knownMap env !! ex else None) = None
      ∧ (if truthy ex then held (byExe (cache st)) ex else None) = None
      ∧ (if truthy p then held (byPath (cache st)) (lower p) else None) = None
  end.
Proof.
  intros H. tiers H; inversion H; subst; clear H; try done.
  all: cbv zeta; split; [|by repeat split].
  all: eexists; split; [reflexivity|]; guards; unfold cacheKey;
    try (rewrite (or_else_truthy p) by (done || by eapply metadata_path));
    (split; [|done]);
    first
      [ done
      | by eapply metadata_truthy
      | by rewrite take_truthy by lia; apply long_truthy
      | by rewrite deslug_truthy;
           eapply decodeURI_truthy; [done|]; eapply steam_folder_truthy
      | apply fallbackName_truthy ].
Qed.

(** The keys a call writes for an executable path can be assigned to:
    a call that got past the cache lookup found both reads falsy. *)
Lemma written_keys_assignable env os now p pn title st tier n st' :
  resolveDisplayName env os now p pn title st = (Returns tier n, st') →
  tier ≠ KNOWN → tier ≠ CACHE → truthy p = true →
  (truthy (exeBase (platform env) p) = true →
   assignable (byExe (cache st)) (exeBase (platform env) p) = true)
  ∧ assignable (byPath (cache st)) (lower p) = true.
Proof.
  intros H H1 H2 Hp. apply resolveDisplayName_returns in H.
  destruct tier; try done; destruct H as (_ & _ & He & Hpa); cbv zeta in He.
  all: rewrite Hp in Hpa; split; [|by apply held_None_assignable].
  all: intros Hb; rewrite (or_else_truthy _ _ Hb), Hb in He;
    by apply held_None_assignable.
Qed.

(** The only way not to return: tier 6 met a folder that [decodeURI]
    rejects, and then nothing was written. *)
Lemma resolveDisplayName_throws env os now p pn title st st' :
  resolveDisplayName env os now p pn title st = (Throws, st') →
  st' = st ∧ truthy p = true ∧
  ∃ folder, steam_folder (slashes (lower p)) = Some folder
            ∧ Uri.decodeURI folder = None.
Proof.
  intros H. tiers H; inversion H; subst; clear H. guards. eauto.
Qed.

(** Names of the curated table are never empty. *)
Lemma known_names_truthy k v :
  Tables.KNOWN_EXE_MAP !! k = Some v → truthy v = true.
Proof.
  unfold Tables.KNOWN_EXE_MAP. intros H%elem_of_list_to_map_2.
  unfold Tables.KNOWN_EXE_LIST in H.
  rewrite !elem_of_cons, elem_of_nil in H.
  repeat (destruct H as [[= -> ->]|H]; [done|]). done.
Qed.

(** Whatever a call returns is truthy, hence no empty string, provided
    the table it was given holds none. *)
Lemma returned_name_truthy env os now p pn title st tier n st' :
  (∀ k v, knownMap env !! k = Some v → truthy v = true) →
  resolveDisplayName env os now p pn title st = (Returns tier n, st') →
  is_truthy n = true.
Proof.
  intros Hknown H.
  pose proof (resolveDisplayName_returns _ _ _ _ _ _ _ _ _ _ H) as Hw.
  destruct tier.
  3-7: by destruct Hw as [(s & -> & Hs & _) _].
  all: clear Hw; tiers H; inversion H; subst; clear H; guards; simpl; eauto.
Qed.

(** A call returns as soon as tier 6 has nothing to decode or decodes
    it. *)
Lemma resolveDisplayName_returns_unless_malformed env os now p pn title st :
  (∀ folder, steam_folder (slashes (lower p)) = Some folder →
             is_Some (Uri.decodeURI folder)) →
  ∃ tier n st', resolveDisplayName env os now p pn title st = (Returns tier n, st').
Proof.
  intros Hdec.
  destruct (resolveDisplayName env os now p pn title st) as [[tier n|] st'] eqn:H;
    [by eauto|].
  apply resolveDisplayName_throws in H as (_ & _ & folder & Hf & Hd).
  destruct (Hdec _ Hf) as [? ?]. congruence.
Qed.

Lemma metadata_no_path env os : metadata env os "" = None.
Proof. unfold metadata. by destruct (platform env). Qed.

(** With no path and no process name, and a title shorter than three
    characters once trimmed, the last tier answers with the sentinel
    and stores nothing. *)
Lemma no_basename_gives_sentinel env os now title st :
  (truthy title && (3 <=? String.length (trim title))%nat) = false →
  resolveDisplayName env os now "" "" title st
  = (Returns FALLBACK "Unknown App", st).
Proof.
  intros Ht. unfold resolveDisplayName. cbv zeta.
  rewrite metadata_no_path, Ht. reflexivity.
Qed.



(** A path that has been resolved once is answered by the table or the
    cache ever after in that state: the later tiers, and with them the
    URIError of tier 6, are out of reach. *)
Lemma resolveDisplayName_settles env os now p pn title st tier name st1 :
  resolveDisplayName env os now p pn title st = (Returns tier name, st1) →
  truthy p = true →
  ∃ tier' name', ∀ os' now' title',
    resolveDisplayName env os' now' p pn title' st1 = (Returns tier' name', st1).
Proof.
  intros H Hp.
  pose proof (resolveDisplayName_returns _ _ _ _ _ _ _ _ _ _ H) as Hw.
  rewrite cacheKey_path in Hw by done.
  destruct (if truthy (or_else (exeBase (platform env) p) (lower pn))
            then knownMap env !! or_else (exeBase (platform env) p) (lower pn)
            else None) as [k|] eqn:E1.
  { exists KNOWN, k. intros. unfold resolveDisplayName. cbv zeta. by rewrite E1. }
  destruct (if truthy (or_else (exeBase (platform env) p) (lower pn))
            then held (byExe (cache st1))
                   (or_else (exeBase (platform env) p) (lower pn))
            else None) as [c|] eqn:E2.
  { exists CACHE, c. intros. unfold resolveDisplayName. cbv zeta.
    by rewrite E1, E2. }
  assert (∃ c, held (byPath (cache st1)) (lower p) = Some c) as [c E3].
  { destruct tier.
    1: { exfalso. subst st1. tiers H; inversion H; subst; clear H. congruence. }
    1: { subst st1. tiers H; inversion H; subst; clear H; [congruence|].
         rewrite Hp in *. eauto. }
    all: destruct (written_keys_assignable _ _ _ _ _ _ _ _ _ _ H) as [_ Ha];
      [done|done|done|].
    all: destruct Hw as [(s & -> & Hn & ->) _]; exists s;
      by apply held_own; [apply putCache_byPath|]. }
  exists CACHE, c. intros. unfold resolveDisplayName. cbv zeta.
  by rewrite E1, E2, Hp, E3.
Qed.

End ResolverFacts.

(** * The resolver against its specification *)

Section ResolverClaims.

Import Js Resolver Examples.

(** C1 (the code departs from the claim).  A call whose path has a
    [steamapps/common/<folder>] segment that is not a valid URI-encoded
    string, for an executable unknown to the table, the cache, the index
    and the metadata probe, and with an empty window title, does not
    return: the URIError of [decodeURI] in tier 6 is caught by no tier
    boundary and reaches the caller. *)
Theorem resolveDisplayName_throws_on_malformed_folder :
  resolveDisplayName env0 no_os 1 juice "game" "" (init 0) = (Throws, init 0).
Proof. vm_compute. reflexivity. Qed.

(** C6 (the code departs from the claim).  On that same input no name,
    empty or not, is returned to the caller. *)
Theorem resolveDisplayName_names_nothing_on_malformed_folder :
  ∀ tier name st',
    resolveDisplayName env0 no_os 1 juice "game" "" (init 0)
    ≠ (Returns tier name, st').
Proof. intros tier name st'. vm_compute. discriminate. Qed.

(** Writing the same (path, name) pair a second time changes nothing of
    the resolver state, with or without a flush in between, for every
    pair whose two keys can be assigned to, that is, unless a key is
    [__proto__] and the cache object does not own it.  And a burst of
    writes with no timer callback in between schedules no flush when
    one is pending and at most one otherwise. *)
Lemma putCache_idempotent_when_assignable (pf : Platform) (st : State) :
  (∀ now1 now2 write_ok exePath name,
     (truthy (exeBase pf exePath) = true →
      assignable (byExe (cache st)) (exeBase pf exePath) = true) →
     (truthy exePath = true →
      assignable (byPath (cache st)) (lower exePath) = true) →
     putCache pf now2 exePath name (putCache pf now1 exePath name st)
     = putCache pf now1 exePath name st
     ∧ let flushed := (timerFires write_ok (putCache pf now1 exePath name st)).1 in
       putCache pf now2 exePath name flushed = flushed)
  ∧ (∀ writes,
       (scheduled (putMany pf writes st)
        ≤ scheduled st + if timer st then 0 else 1)%nat).
Proof.
  split.
  - intros. split; [by apply putCache_again|by apply putCache_again_after_flush].
  - intros. apply putMany_scheduled.
Qed.


(** C9, as the code has it.  A name produced by tiers 3 to 7 is a
    string, and it is stored under both keys derived from
    [exePath || ex] (the base name and the lowercased path, each when it
    is not empty) wherever the assignment takes effect; under the key
    [__proto__] of an object that does not own it nothing is stored.
    [exePath || ex] is the executable path whenever there is one, and
    then both keys can be assigned to.  A name produced by the table or
    by the cache lookup leaves the state as it was. *)
Theorem resolved_past_cache_tier_is_written_back
    env os now exePath processName windowTitle st tier name st' :
  resolveDisplayName env os now exePath processName windowTitle st
  = (Returns tier name, st') →
  let pf := platform env in
  let key := cacheKey pf exePath processName in
  (truthy exePath = true → key = exePath)
  ∧ match tier with
    | KNOWN | CACHE => st' = st
    | _ =>
        ∃ s, name = Str s
        ∧ (truthy (exeBase pf key) = true →
           if assignable (byExe (cache st)) (exeBase pf key)
           then byExe (cache st') !! exeBase pf key = Some s
           else byExe (cache st') = byExe (cache st))
        ∧ (truthy key = true →
           if assignable (byPath (cache st)) (lower key)
           then byPath (cache st') !! lower key = Some s
           else byPath (cache st') = byPath (cache st))
        ∧ (truthy exePath = true →
           (truthy (exeBase pf key) = true →
            assignable (byExe (cache st)) (exeBase pf key) = true)
           ∧ assignable (byPath (cache st)) (lower key) = true)
    end.
Proof.
  intros H pf key. split; [apply cacheKey_path|].
  pose proof (written_keys_assignable _ _ _ _ _ _ _ _ _ _ H) as Ha.
  apply resolveDisplayName_returns in H.
  destruct tier; try done.
  all: destruct H as [(s & -> & Hn & ->) _]; exists s; split; [done|].
  all: fold pf key; split; [|split].
  all: try (intros Hk;
            match goal with |- if ?b then _ else _ => destruct b eqn:E end;
            first [ by apply putCache_byExe | by apply putCache_byPath
                  | by apply putCache_byExe_unassignable
                  | by apply putCache_byPath_unassignable ]).
  all: intros Hp; unfold key; rewrite cacheKey_path by done; by apply Ha.
Qed.


(** The cache tier answers a second path of a cached base name and
    stores nothing under that path: the claim C9 as stated fails for the
    cache-lookup tier. *)
Lemma cache_tier_writes_nothing_back :
  let st1 := (call env0 foo_act1 (init 0)).2 in
  call env0 foo_elsewhere st1 = (Returns CACHE "Foo - Act 1", st1)
  ∧ byPath (cache st1) !! lower (c_exePath foo_elsewhere) = None.
Proof. vm_compute. split; reflexivity. Qed.

(** Nor is a name from the title tier stored under the base name
    [__proto__]. *)
Lemma proto_key_is_never_written :
  let r := resolveDisplayName (mkEnv ∅ linux ∅) no_os 1 "" "x/__proto__"
             "Some Title" (init 0) in
  r.1 = Returns WINDOW_TITLE "Some Title"
  ∧ exeBase linux (cacheKey linux "" "x/__proto__") = "__proto__"
  ∧ byExe (cache r.2) !! "__proto__" = None
  ∧ byPath (cache r.2) !! "x/__proto__" = Some "Some Title".
Proof. vm_compute. repeat split; reflexivity. Qed.


Lemma resolved_past_cache_tier_is_written_back_witness :
  let st1 := (call env0 foo_act1 (init 0)).2 in
  byExe (cache st1) !! "foo.exe" = Some "Foo - Act 1"
  ∧ byPath (cache st1) !! "c:\games\foo\foo.exe" = Some "Foo - Act 1".
Proof.
  intros st1.
  destruct (resolved_past_cache_tier_is_written_back env0 no_os 1
              "C:\Games\Foo\foo.exe" "foo" "Foo - Act 1" (init 0)
              WINDOW_TITLE "Foo - Act 1" st1) as [_ (s & [= <-] & H1 & H2 & _)].
  - vm_compute. reflexivity.
  - split; [apply (H1 eq_refl) | apply (H2 eq_refl)].
Defined.


End ResolverClaims.

(** * Properties of the session state machine *)

Section WorkerFacts.

Import Js Worker.

Variable pf : Platform.
Variable index : gmap string string.



Lemma finishCurrentIfStale_fresh now st cur :
  currentActive st = Some cur → now - lastSeen cur ≤ ACTIVE_STALE_MS →
  finishCurrentIfStale now st = mkOutcome st [] false.
Proof.
  unfold finishCurrentIfStale. intros -> H.
  by rewrite (proj2 (Z.ltb_ge _ _) H).
Qed.

Lemma finishCurrentIfStale_resolver now st :
  resolver (after (finishCurrentIfStale now st)) = resolver st.
Proof. unfold finishCurrentIfStale. by repeat case_match. Qed.

Lemma finishCurrentIfStale_no_update now st pl :
  Update pl ∉ sent (finishCurrentIfStale now st).
Proof.
  unfold finishCurrentIfStale.
  repeat case_match; simpl; rewrite ?elem_of_cons, ?elem_of_nil; intuition congruence.
Qed.

(** The two gates, read off [qualifies]. *)
Lemma qualifies_gates aw :
  qualifies pf aw = true →
  excluded (exeBase pf (or_else (win_exePath aw) (win_procName aw))) = false
  ∧ negb (is_game_or_geek
            (category (classify
               (exeBase pf (or_else (win_exePath aw) (win_procName aw)))
               (win_exePath aw)))
          || hasGameHint (win_exePath aw)) = false.
Proof.
  unfold qualifies, win_base. intros [H1 H2]%andb_true_iff.
  split; [by apply negb_true_iff|by rewrite H2].
Qed.

(** A quiet tick does nothing but the staleness check. *)
Lemma pollActive_quiet t st :
  quiet pf t = true → pollActive pf index t st = finishCurrentIfStale (now t) st.
Proof.
  unfold quiet, pollActive. destruct (probe t) as [|[aw|]]; try done.
  unfold qualifies, win_base. cbv zeta. intros H%negb_true_iff.
  destruct (excluded _); [done|]. cbn [negb andb] in H. by rewrite H.
Qed.

(** The first qualifying snapshot of an idle machine. *)
Lemma pollActive_start t st aw tier name rs :
  probe t = ProbeReturns (Some aw) → qualifies pf aw = true →
  currentActive st = None →
  Resolver.resolveDisplayName (resolverEnv pf index) (os t) (cache_now t)
    (win_exePath aw) (win_procName aw) (win_title aw) (resolver st)
  = (Resolver.Returns tier name, rs) →
  let pl := buildPresencePayload pf (payload_now t) "active" (win_exePath aw)
              (win_title aw) (win_procName aw) (owner_pid aw) name
              (classify (win_base pf aw) (win_exePath aw)) in
  pollActive pf index t st
  = mkOutcome
      (mkState (Some (mkSession (signature_of aw) (owner_pid aw) (now t) (now t) pl))
         (now t) rs)
      [Update pl] false.
Proof.
  intros Hp [Hx Hg]%qualifies_gates Hc Hr. unfold pollActive.
  rewrite Hp. cbv zeta. by rewrite Hx, Hg, Hc, Hr.
Qed.

(** A qualifying snapshot with another signature replaces the live
    session: ended first, then the update. *)
Lemma pollActive_replace t st aw cur tier name rs :
  probe t = ProbeReturns (Some aw) → qualifies pf aw = true →
  currentActive st = Some cur → signature cur ≠ signature_of aw →
  Resolver.resolveDisplayName (resolverEnv pf index) (os t) (cache_now t)
    (win_exePath aw) (win_procName aw) (win_title aw) (resolver st)
  = (Resolver.Returns tier name, rs) →
  let pl := buildPresencePayload pf (payload_now t) "active" (win_exePath aw)
              (win_title aw) (win_procName aw) (owner_pid aw) name
              (classify (win_base pf aw) (win_exePath aw)) in
  pollActive pf index t st
  = mkOutcome
      (mkState (Some (mkSession (signature_of aw) (owner_pid aw) (now t) (now t) pl))
         (now t) rs)
      [Ended (payload cur) (now t); Update pl] false.
Proof.
  intros Hp [Hx Hg]%qualifies_gates Hc Hs Hr. unfold pollActive.
  rewrite Hp. cbv zeta. rewrite Hx, Hg, Hc, Hr.
  by rewrite bool_decide_eq_false_2.
Qed.

(** A qualifying snapshot with the signature of the live session only
    refreshes it, however old it is. *)
Lemma pollActive_same t st aw cur :
  probe t = ProbeReturns (Some aw) → qualifies pf aw = true →
  currentActive st = Some cur → signature cur = signature_of aw →
  let cur' := mkSession (signature cur) (pid cur) (startedAt cur) (now t)
                (payload cur) in
  pollActive pf index t st
  = if HEARTBEAT_MS <=? now t - lastHeartbeatAt st
    then mkOutcome (mkState (Some cur') (now t) (resolver st))
           [Heartbeat (payload cur)] false
    else mkOutcome (mkState (Some cur') (lastHeartbeatAt st) (resolver st)) [] false.
Proof.
  intros Hp [Hx Hg]%qualifies_gates Hc Hs. unfold pollActive.
  rewrite Hp. cbv zeta. rewrite Hx, Hg, Hc.
  by rewrite bool_decide_eq_true_2.
Qed.

(** When resolving the new name throws, the ended event of the live
    session has already been sent and the session is kept. *)
Lemma pollActive_replace_throws t st aw cur rs :
  probe t = ProbeReturns (Some aw) → qualifies pf aw = true →
  currentActive st = Some cur → signature cur ≠ signature_of aw →
  Resolver.resolveDisplayName (resolverEnv pf index) (os t) (cache_now t)
    (win_exePath aw) (win_procName aw) (win_title aw) (resolver st)
  = (Resolver.Throws, rs) →
  pollActive pf index t st
  = mkOutcome (mkState (Some cur) (lastHeartbeatAt st) rs)
      [Ended (payload cur) (now t)] true.
Proof.
  intros Hp [Hx Hg]%qualifies_gates Hc Hs Hr. unfold pollActive.
  rewrite Hp. cbv zeta. rewrite Hx, Hg, Hc, Hr.
  by rewrite bool_decide_eq_false_2.
Qed.

Lemma pollActive_start_throws t st aw rs :
  probe t = ProbeReturns (Some aw) → qualifies pf aw = true →
  currentActive st = None →
  Resolver.resolveDisplayName (resolverEnv pf index) (os t) (cache_now t)
    (win_exePath aw) (win_procName aw) (win_title aw) (resolver st)
  = (Resolver.Throws, rs) →
  pollActive pf index t st = mkOutcome (mkState None (lastHeartbeatAt st) rs) [] true.
Proof.
  intros Hp [Hx Hg]%qualifies_gates Hc Hr. unfold pollActive.
  rewrite Hp. cbv zeta. by rewrite Hx, Hg, Hc, Hr.
Qed.

(** *** The lifecycle of the stream *)

Lemma lifecycle_app live evs1 evs2 :
  lifecycle live (evs1 ++ evs2)
  = match lifecycle live evs1 with
    | Some live' => lifecycle live' evs2
    | None => None
    end.
Proof.
  revert live. induction evs1 as [|e evs1 IH]; intros live; simpl; [done|].
  by destruct (lifecycle_step live e).
Qed.

Lemma finishCurrentIfStale_lifecycle now st :
  lifecycle (payload <$> currentActive st) (sent (finishCurrentIfStale now st))
  = Some (payload <$> currentActive (after (finishCurrentIfStale now st))).
Proof.
  unfold finishCurrentIfStale.
  destruct (currentActive st) as [cur|] eqn:Hc; simpl; [|by rewrite Hc].
  destruct (ACTIVE_STALE_MS <? now - lastSeen cur); simpl.
  - by rewrite decide_True.
  - by rewrite Hc.
Qed.

(** A tick that logs no error extends the stream within the
    lifecycle. *)
Lemma pollActive_lifecycle t st :
  logged (pollActive pf index t st) = false →
  lifecycle (payload <$> currentActive st) (sent (pollActive pf index t st))
  = Some (payload <$> currentActive (after (pollActive pf index t st))).
Proof.
  destruct (quiet pf t) eqn:Hq.
  { rewrite pollActive_quiet by done. intros _. apply finishCurrentIfStale_lifecycle. }
  destruct (probe t) as [|[aw|]] eqn:Hp.
  - unfold pollActive. by rewrite Hp.
  - assert (Hg : qualifies pf aw = true).
    { unfold quiet in Hq. rewrite Hp in Hq. by apply negb_false_iff. }
    destruct (Resolver.resolveDisplayName (resolverEnv pf index) (os t)
                (cache_now t) (win_exePath aw) (win_procName aw) (win_title aw)
                (resolver st)) as [[tier name|] rs] eqn:Hr;
      destruct (currentActive st) as [cur|] eqn:Hc.
    + destruct (decide (signature cur = signature_of aw)) as [Hs|Hs].
      * rewrite (pollActive_same _ _ _ _ Hp Hg Hc Hs).
        destruct (HEARTBEAT_MS <=? _); simpl; [|done]. by rewrite decide_True.
      * rewrite (pollActive_replace _ _ _ _ _ _ _ Hp Hg Hc Hs Hr). simpl.
        by rewrite decide_True.
    + by rewrite (pollActive_start _ _ _ _ _ _ Hp Hg Hc Hr).
    + destruct (decide (signature cur = signature_of aw)) as [Hs|Hs].
      * rewrite (pollActive_same _ _ _ _ Hp Hg Hc Hs).
        destruct (HEARTBEAT_MS <=? _); simpl; [|done]. by rewrite decide_True.
      * by rewrite (pollActive_replace_throws _ _ _ _ _ Hp Hg Hc Hs Hr).
    + by rewrite (pollActive_start_throws _ _ _ _ Hp Hg Hc Hr).
  - unfold quiet in Hq. by rewrite Hp in Hq.
Qed.

(** A run in which no tick logs an error sends a stream that obeys the
    lifecycle, and the session open at its end is the live one. *)
Lemma run_lifecycle ts st :
  logged (run pf index ts st) = false →
  lifecycle (payload <$> currentActive st) (sent (run pf index ts st))
  = Some (payload <$> currentActive (after (run pf index ts st))).
Proof.
  revert st. induction ts as [|t ts IH]; intros st; simpl; [done|].
  intros [H1 H2]%orb_false_iff.
  rewrite lifecycle_app, pollActive_lifecycle by done. by apply IH.
Qed.

(** *** Updates are kept apart, resolver failures or not *)

Lemma updates_apart_app open evs1 evs2 :
  updates_apart open (evs1 ++ evs2)
  = match updates_apart open evs1 with
    | Some open' => updates_apart open' evs2
    | None => None
    end.
Proof.
  revert open. induction evs1 as [|[pl|pl|pl z] evs1 IH]; intros open; simpl;
    try done.
  by destruct open.
Qed.

Lemma finishCurrentIfStale_apart now st open :
  (open = true → currentActive st ≠ None) →
  ∃ open', updates_apart open (sent (finishCurrentIfStale now st)) = Some open'
           ∧ (open' = true → currentActive (after (finishCurrentIfStale now st)) ≠ None).
Proof.
  intros Hinv. unfold finishCurrentIfStale.
  destruct (currentActive st) as [cur|] eqn:Hc; simpl.
  - destruct (ACTIVE_STALE_MS <? now - lastSeen cur); simpl.
    + exists false. by split.
    + exists open. rewrite Hc. by split.
  - exists open. by rewrite Hc.
Qed.

(** Every tick keeps updates apart, also when the probe or the resolver
    throws. *)
Lemma pollActive_apart t st open :
  (open = true → currentActive st ≠ None) →
  ∃ open', updates_apart open (sent (pollActive pf index t st)) = Some open'
           ∧ (open' = true → currentActive (after (pollActive pf index t st)) ≠ None).
Proof.
  intros Hinv.
  destruct (quiet pf t) eqn:Hq.
  { rewrite pollActive_quiet by done. by apply finishCurrentIfStale_apart. }
  destruct (probe t) as [|[aw|]] eqn:Hp.
  - unfold pollActive. rewrite Hp. simpl. eauto.
  - assert (Hg : qualifies pf aw = true).
    { unfold quiet in Hq. rewrite Hp in Hq. by apply negb_false_iff. }
    destruct (Resolver.resolveDisplayName (resolverEnv pf index) (os t)
                (cache_now t) (win_exePath aw) (win_procName aw) (win_title aw)
                (resolver st)) as [[tier name|] rs] eqn:Hr;
      destruct (currentActive st) as [cur|] eqn:Hc.
    + destruct (decide (signature cur = signature_of aw)) as [Hs|Hs].
      * rewrite (pollActive_same _ _ _ _ Hp Hg Hc Hs).
        destruct (HEARTBEAT_MS <=? _); simpl; exists open; by split.
      * rewrite (pollActive_replace _ _ _ _ _ _ _ Hp Hg Hc Hs Hr). simpl.
        exists true. by split.
    + rewrite (pollActive_start _ _ _ _ _ _ Hp Hg Hc Hr). simpl.
      destruct open; [by destruct Hinv|]. exists true. by split.
    + destruct (decide (signature cur = signature_of aw)) as [Hs|Hs].
      * rewrite (pollActive_same _ _ _ _ Hp Hg Hc Hs).
        destruct (HEARTBEAT_MS <=? _); simpl; exists open; by split.
      * rewrite (pollActive_replace_throws _ _ _ _ _ Hp Hg Hc Hs Hr). simpl.
        exists false. by split.
    + rewrite (pollActive_start_throws _ _ _ _ Hp Hg Hc Hr). simpl.
      exists open. split; [done|]. intros ->. by destruct Hinv.
  - unfold quiet in Hq. by rewrite Hp in Hq.
Qed.

(** In every run, two updates are separated by an ended event. *)
Lemma run_updates_apart ts st open :
  (open = true → currentActive st ≠ None) →
  ∃ open', updates_apart open (sent (run pf index ts st)) = Some open'
           ∧ (open' = true → currentActive (after (run pf index ts st)) ≠ None).
Proof.
  revert st open. induction ts as [|t ts IH]; intros st open Hinv; simpl.
  { eauto. }
  destruct (pollActive_apart t st open Hinv) as (open1 & H1 & Hinv1).
  destruct (IH _ _ Hinv1) as (open2 & H2 & Hinv2).
  exists open2. by rewrite updates_apart_app, H1.
Qed.

(** *** Signatures *)

Lemma length_append (a b : string) :
  String.length (a ++ b) = (String.length a + String.length b)%nat.
Proof. induction a as [|x a IH]; simpl; [done|]. by rewrite IH. Qed.

Lemma append_cancel_r (a b s : string) : a ++ s = b ++ s → a = b.
Proof.
  revert b. induction a as [|x a IH]; intros [|y b] H.
  - done.
  - exfalso. apply (f_equal String.length) in H.
    rewrite !length_append in H. simpl in H. lia.
  - exfalso. apply (f_equal String.length) in H.
    rewrite !length_append in H. simpl in H. lia.
  - assert (H' : String x (a ++ s) = String y (b ++ s)) by exact H.
    injection H' as -> H'. f_equal. by apply IH.
Qed.

(** Two snapshots that differ in the window title only have different
    signatures. *)
Lemma signature_title_sensitive a b :
  win_exePath a = win_exePath b → win_procName a = win_procName b →
  owner_pid a = owner_pid b → win_title a ≠ win_title b →
  signature_of a ≠ signature_of b.
Proof.
  unfold signature_of. intros -> -> -> Ht H. apply Ht. cbn [join] in H.
  apply (inj (String.app _)) in H.
  apply (inj (String.app _)) in H.
  by apply append_cancel_r in H.
Qed.

(** A qualifying snapshot names an executable. *)
Lemma qualifies_path aw : qualifies pf aw = true → truthy (win_exePath aw) = true.
Proof.
  intros Hq. destruct (truthy (win_exePath aw)) eqn:E; [done|]. exfalso.
  apply truthy_false in E.
  assert (Hn : win_procName aw = "").
  { revert E. unfold win_exePath, win_procName, or_else.
    destruct (owner_path aw), (owner_name aw); simpl; congruence. }
  revert Hq. unfold qualifies, win_base. rewrite E, Hn. by vm_compute.
Qed.

(** The gates look at the path and the process name only. *)
Lemma qualifies_ext a b :
  win_exePath a = win_exePath b → win_procName a = win_procName b →
  qualifies pf a = qualifies pf b.
Proof. unfold qualifies, win_base. by intros -> ->. Qed.

(** A throwing window query: the error is logged, nothing is sent, and
    the state, stale session included, is left as it was. *)
Lemma pollActive_probe_throws t st :
  probe t = ProbeThrows → pollActive pf index t st = mkOutcome st [] true.
Proof. unfold pollActive. by intros ->. Qed.

(** A window without owner names no executable: the tick is quiet and
    staleness is evaluated. *)
Lemma ownerless_window_is_quiet t aw :
  probe t = ProbeReturns (Some aw) → owner aw = None → quiet pf t = true.
Proof.
  intros Hp Ho. unfold quiet. rewrite Hp.
  destruct (qualifies pf aw) eqn:Hq; [|done].
  apply qualifies_path in Hq. revert Hq.
  unfold win_exePath, owner_path, owner_name. by rewrite Ho.
Qed.

(** Signature sensitivity.  A snapshot opens a session (its name
    resolves); the next snapshot differs from it in the window title
    only.  Then the second tick sends the ended event of the first
    session followed by the update of a second one: the name of the
    second always resolves, the first having settled it. *)
Lemma title_change_ends_and_starts t1 t2 st0 aw1 aw2 ses1 :
  probe t1 = ProbeReturns (Some aw1) → qualifies pf aw1 = true →
  same_session st0 (signature_of aw1) = false →
  logged (pollActive pf index t1 st0) = false →
  currentActive (after (pollActive pf index t1 st0)) = Some ses1 →
  probe t2 = ProbeReturns (Some aw2) →
  win_exePath aw2 = win_exePath aw1 → win_procName aw2 = win_procName aw1 →
  owner_pid aw2 = owner_pid aw1 → win_title aw2 ≠ win_title aw1 →
  ∃ pl2,
    signature ses1 = signature_of aw1
    ∧ p_title pl2 = or_null (win_title aw2)
    ∧ pollActive pf index t2 (after (pollActive pf index t1 st0))
      = mkOutcome
          (mkState (Some (mkSession (signature_of aw2) (owner_pid aw2)
                            (now t2) (now t2) pl2))
             (now t2) (resolver (after (pollActive pf index t1 st0))))
          [Ended (payload ses1) (now t2); Update pl2] false.
Proof.
  intros Hp1 Hq1 Hsame Hlog Hses Hp2 Hpath Hname Hpid Htitle.
  assert (Hq2 : qualifies pf aw2 = true) by by rewrite (qualifies_ext aw2 aw1).
  assert (Hsig : signature_of aw1 ≠ signature_of aw2).
  { apply signature_title_sensitive; congruence. }
  destruct (Resolver.resolveDisplayName (resolverEnv pf index) (os t1)
              (cache_now t1) (win_exePath aw1) (win_procName aw1) (win_title aw1)
              (resolver st0)) as [[tier name|] rs] eqn:Hr.
  - destruct (resolveDisplayName_settles _ _ _ _ _ _ _ _ _ _ Hr
                (qualifies_path _ Hq1)) as (tier' & name' & Hagain).
    assert (Hafter : ∃ pl1,
               after (pollActive pf index t1 st0)
               = mkState (Some (mkSession (signature_of aw1) (owner_pid aw1)
                                  (now t1) (now t1) pl1)) (now t1) rs).
    { unfold same_session in Hsame.
      destruct (currentActive st0) as [cur|] eqn:Hc.
      - apply bool_decide_eq_false in Hsame.
        rewrite (pollActive_replace _ _ _ _ _ _ _ Hp1 Hq1 Hc Hsame Hr). eauto.
      - rewrite (pollActive_start _ _ _ _ _ _ Hp1 Hq1 Hc Hr). eauto. }
    destruct Hafter as [pl1 Hafter]. rewrite Hafter in Hses |- *.
    simpl in Hses. injection Hses as <-.
    set (ses := mkSession (signature_of aw1) (owner_pid aw1) (now t1) (now t1) pl1).
    set (st1 := mkState (Some ses) (now t1) rs).
    assert (Hr2 : Resolver.resolveDisplayName (resolverEnv pf index) (os t2)
                    (cache_now t2) (win_exePath aw2) (win_procName aw2)
                    (win_title aw2) (resolver st1)
                  = (Resolver.Returns tier' name', rs)).
    { simpl. rewrite Hpath, Hname. apply Hagain. }
    pose proof (pollActive_replace t2 st1 aw2 ses tier' name' rs
                  Hp2 Hq2 eq_refl Hsig Hr2) as Hrep.
    eexists. split; [done|]. split; [|exact Hrep]. done.
  - exfalso. revert Hlog. unfold same_session in Hsame.
    destruct (currentActive st0) as [cur|] eqn:Hc.
    + apply bool_decide_eq_false in Hsame.
      by rewrite (pollActive_replace_throws _ _ _ _ _ Hp1 Hq1 Hc Hsame Hr).
    + by rewrite (pollActive_start_throws _ _ _ _ Hp1 Hq1 Hc Hr).
Qed.

End WorkerFacts.

(** * The session state machine against its specification *)

Section WorkerClaims.

Import Js Worker Examples.

(** C2 (the code departs from the claim).  A session is live; the next
    two ticks see a window whose name resolution throws; then the first
    window is back.  The ended event of the live session is sent on each
    of the two ticks, the session is never cleared, and a heartbeat for
    it follows its ended events: the stream is not
    started, heartbeats, ended. *)
Theorem lifecycle_broken_when_resolution_throws :
  let o := run win32 ∅
             [tick_at 0 (seen cs2); tick_at 1000 (seen juice_window);
              tick_at 2000 (seen juice_window); tick_at 7000 (seen cs2)]
             (Worker.init 0) in
  let pl := payload cs2_session in
  sent o = [Update pl; Ended pl 1000; Ended pl 2000; Heartbeat pl]
  ∧ lifecycle None (sent o) = None
  ∧ currentActive (after o) ≠ None.
Proof. vm_compute. repeat split; discriminate. Qed.




(** C4 (the code departs from the claim).  Two qualifying snapshots
    that differ in window title and in process name have the same
    signature, because the separator of the joined fields may occur
    inside a field; the second is taken for the session of the first and
    nothing is sent for it. *)
Theorem distinct_snapshots_share_a_signature :
  win_title quest_menu ≠ win_title quest_other
  ∧ win_procName quest_menu ≠ win_procName quest_other
  ∧ qualifies linux quest_menu = true
  ∧ qualifies linux quest_other = true
  ∧ signature_of quest_menu = signature_of quest_other
  ∧ sent (pollActive linux ∅ (tick_at 1000 (seen quest_other))
            (after (pollActive linux ∅ (tick_at 0 (seen quest_menu))
                      (Worker.init 0)))) = [].
Proof. vm_compute. repeat split; (discriminate || reflexivity). Qed.

(** C5 (the code departs from the claim).  A tick whose window query
    throws logs the error and does nothing else: a session last seen
    sixty seconds ago stays live and no ended event is sent, where the
    tick with no window ends it. *)
Theorem probe_failure_skips_staleness :
  currentActive cs2_live = Some cs2_session
  ∧ pollActive win32 ∅ (tick_at 60000 ProbeThrows) cs2_live
    = mkOutcome cs2_live [] true
  ∧ sent (pollActive win32 ∅ (tick_at 60000 nothing) cs2_live)
    = [Ended (payload cs2_session) 60000].
Proof. vm_compute. repeat split; reflexivity. Qed.

(** C7.  A snapshot whose base name is in the launcher set or in the
    non-game set sends no update, whatever the classifier and the path
    hints say: the tick is the staleness check and nothing else, and the
    resolver is not called. *)
Theorem excluded_base_sends_no_update pf index t st aw :
  probe t = ProbeReturns (Some aw) →
  win_base pf aw ∈ Tables.LAUNCHER_BASES ∪ Tables.NON_GAME_BASES →
  pollActive pf index t st = finishCurrentIfStale (now t) st
  ∧ (∀ pl, Update pl ∉ sent (pollActive pf index t st))
  ∧ resolver (after (pollActive pf index t st)) = resolver st.
Proof.
  intros Hp Hin.
  assert (Hq : quiet pf t = true).
  { unfold quiet, qualifies, excluded. rewrite Hp.
    apply elem_of_union in Hin as [Hin|Hin];
      rewrite (bool_decide_eq_true_2 _ Hin); by rewrite ?orb_true_r. }
  rewrite pollActive_quiet by done. split; [done|]. split.
  - intros pl. apply finishCurrentIfStale_no_update.
  - apply finishCurrentIfStale_resolver.
Qed.

Lemma excluded_base_sends_no_update_witness :
  classify (win_base win32 launcher_window) (win_exePath launcher_window)
  = mkClass game (9 # 10)%Q
  ∧ hasGameHint (win_exePath launcher_window) = true
  ∧ ∀ pl, Update pl ∉ sent (pollActive win32 ∅ (tick_at 0 (seen launcher_window))
                               (Worker.init 0)).
Proof.
  split; [vm_compute; reflexivity|]. split; [vm_compute; reflexivity|].
  apply (excluded_base_sends_no_update win32 ∅ (tick_at 0 (seen launcher_window))
           (Worker.init 0) launcher_window).
  - reflexivity.
  - apply (bool_decide_unpack _). vm_compute. exact I.
Defined.

End WorkerClaims.


(** * Further properties of the resolver *)

Section ResolverMore.

Import Js Resolver Text Examples.

(** X7.  Once a call for an executable path has returned a name, every
    further call for that path and process name in the state it left
    returns the same name, from the table or the cache, whatever the
    window title and the metadata probes say; it writes nothing and
    cannot throw. *)
Theorem resolved_name_is_stable env os now p pn title st tier name st1 :
  resolveDisplayName env os now p pn title st = (Returns tier name, st1) →
  truthy p = true →
  ∀ os' now' title',
    ∃ tier', resolveDisplayName env os' now' p pn title' st1 = (Returns tier' name, st1)
             ∧ (tier' = KNOWN ∨ tier' = CACHE).
Proof.
  intros H Hp os' now' title'.
  pose proof (resolveDisplayName_returns _ _ _ _ _ _ _ _ _ _ H) as Hw.
  rewrite cacheKey_path in Hw by done.
  assert (Hgoal : ∀ tier'' n'',
     (tier'' = KNOWN ∨ tier'' = CACHE) → n'' = name →
     resolveDisplayName env os' now' p pn title' st1 = (Returns tier'' n'', st1) →
     ∃ tier', resolveDisplayName env os' now' p pn title' st1 = (Returns tier' name, st1)
             ∧ (tier' = KNOWN ∨ tier' = CACHE)).
  { intros ? ? ? -> ?. eauto. }
  destruct tier.
  1: { subst st1. tiers H; inversion H; subst; clear H.
       eapply (Hgoal KNOWN); [by left|done|].
       unfold resolveDisplayName. cbv zeta. by rewrite Heqo. }
  1: { subst st1. tiers H; inversion H; subst; clear H.
       - eapply (Hgoal CACHE); [by right|done|].
         unfold resolveDisplayName. cbv zeta. by rewrite Heqo, Heqo0.
       - eapply (Hgoal CACHE); [by right|done|].
         unfold resolveDisplayName. cbv zeta. by rewrite Heqo, Heqo0, Heqo1. }
  all: destruct (written_keys_assignable _ _ _ _ _ _ _ _ _ _ H) as [Ha1 Ha2];
    [done|done|done|].
  all: destruct Hw as ((s & -> & Hn & Hst) & Hknown & Hexe & _); cbv zeta in Hknown, Hexe.
  all: clear H; subst st1.
  all: eapply (Hgoal CACHE); [by right|reflexivity|].
  all: unfold resolveDisplayName; cbv zeta; rewrite Hknown.
  all: destruct (truthy (exeBase (platform env) p)) eqn:Hb.
  all: try (rewrite (or_else_truthy (exeBase (platform env) p)), Hb by done;
            by rewrite (held_own _ _ _ (putCache_byExe _ _ _ _ _ Hn Hb (Ha1 eq_refl)) Hn)).
  all: assert (Hsame : byExe (cache (putCache (platform env) now p s st)) = byExe (cache st))
         by (unfold putCache; rewrite Hn, Hb; cbn;
             repeat case_match; rewrite ?saveCacheSoon_cache; done).
  all: rewrite Hsame, Hexe, Hp.
  all: by rewrite (held_own _ _ _ (putCache_byPath _ _ _ _ _ Hn Hp Ha2) Hn).
Qed.

Lemma decode_plain s : mentions percent s = false → Uri.decode 0 s = Some s.
Proof.
  induction s as [|c r IH]; [done|]. cbn [mentions Uri.decode].
  intros [Hc Hr]%orb_false_iff.
  assert ((code c =? 37)%N = false) as ->.
  { apply N.eqb_neq. intros Hn. apply Ascii.eqb_neq in Hc. apply Hc.
    unfold code in Hn. rewrite <- (ascii_N_embedding c), Hn. reflexivity. }
  by rewrite (IH Hr).
Qed.

Lemma mentions_map f c s :
  (∀ x, Ascii.eqb (f x) c = true → Ascii.eqb x c = true) →
  mentions c (map_chars f s) = true → mentions c s = true.
Proof.
  intros Hf. induction s as [|x r IH]; [done|]. cbn [map_chars mentions].
  intros [H|H]%orb_true_iff; apply orb_true_iff; [left; by apply Hf|right; by apply IH].
Qed.

Lemma mentions_strip_prefix c pre s r :
  strip_prefix pre s = Some r → mentions c r = true → mentions c s = true.
Proof.
  revert s. induction pre as [|a pre IH]; intros [|b s]; cbn [strip_prefix];
    try congruence.
  destruct (Ascii.eqb a b); [|done]. intros H Hm. cbn [mentions].
  apply orb_true_iff. right. by eapply IH.
Qed.

Lemma mentions_take_while c q s :
  mentions c (Path.take_while q s) = true → mentions c s = true.
Proof.
  induction s as [|x r IH]; [done|]. cbn [Path.take_while mentions].
  destruct (q x); [|done]. cbn [mentions].
  intros [H|H]%orb_true_iff; apply orb_true_iff; [by left|right; by apply IH].
Qed.

Lemma mentions_folder_at c s folder :
  folder_at s = Some folder → mentions c folder = true → mentions c s = true.
Proof.
  unfold folder_at.
  destruct (strip_prefix "steamapps/common/" s) as [rest|] eqn:Es; [|done].
  cbv zeta. destruct (truthy (Path.take_while not_slash rest)); [|done].
  intros [= <-] Hm.
  eapply mentions_strip_prefix; [done|]. by eapply mentions_take_while.
Qed.

Lemma mentions_steam_folder c s folder :
  steam_folder s = Some folder → mentions c folder = true → mentions c s = true.
Proof.
  induction s as [|x r IH]; cbn [steam_folder];
    destruct (folder_at _) as [f|] eqn:E; intros H Hm; simplify_eq.
  all: try (eapply mentions_folder_at; eassumption).
  cbn [mentions]. apply orb_true_iff. right. by apply IH.
Qed.

Lemma lower_char_percent x :
  Ascii.eqb (lower_char x) percent = true → Ascii.eqb x percent = true.
Proof. revert x. by intros [[] [] [] [] [] [] [] []]. Qed.

Lemma slash_char_percent x :
  Ascii.eqb (if Ascii.eqb x backslash then slash else x) percent = true →
  Ascii.eqb x percent = true.
Proof. revert x. by intros [[] [] [] [] [] [] [] []]. Qed.

(** X8.  A call for a path that holds no percent sign always returns:
    the URIError of tier 6 needs a percent sign in the path. *)
Theorem returns_for_paths_without_percent env os now p pn title st :
  mentions percent p = false →
  ∃ tier name st',
    resolveDisplayName env os now p pn title st = (Returns tier name, st').
Proof.
  intros Hp. apply resolveDisplayName_returns_unless_malformed.
  intros folder Hf.
  destruct (mentions percent folder) eqn:Hm.
  - exfalso. apply (mentions_steam_folder _ _ _ Hf) in Hm.
    apply mentions_map in Hm; [|apply slash_char_percent].
    apply mentions_map in Hm; [|apply lower_char_percent]. congruence.
  - unfold Uri.decodeURI. rewrite decode_plain by done. by eexists.
Qed.

(** X9.  With the table of the worker, whatever name a call returns is
    not the empty string. *)
Theorem worker_names_are_never_empty pf index os now p pn title st tier name st' :
  resolveDisplayName (Worker.resolverEnv pf index) os now p pn title st
  = (Returns tier name, st') →
  name ≠ "".
Proof.
  intros H.
  assert (Ht : is_truthy name = true).
  { by eapply (returned_name_truthy (Worker.resolverEnv pf index)), H;
      apply known_names_truthy. }
  by intros ->.
Qed.

Lemma length_take n s : String.length (take n s) = Nat.min n (String.length s).
Proof.
  revert n. induction s as [|c r IH]; intros [|n]; cbn; try done.
  by rewrite IH.
Qed.

Lemma trimStart_head s :
  match trimStart s with String c _ => is_space c = false | EmptyString => True end.
Proof.
  induction s as [|c r IH]; [done|]. cbn [trimStart].
  destruct (is_space c) eqn:E; [done|]. done.
Qed.

Lemma trim_head s :
  match trim s with String c _ => is_space c = false | EmptyString => True end.
Proof.
  unfold trim. pose proof (trimStart_head s) as H.
  destruct (trimStart s) as [|c r]; [done|]. cbn [trimEnd].
  destruct (trimEnd r); [|done]. by rewrite H.
Qed.

(** X10.  A name taken from the window title is the trimmed title cut
    to 80 characters: a string that has between 3 and 80 characters and
    does not begin with white space. *)
Theorem title_name_is_bounded env os now p pn title st name st' :
  resolveDisplayName env os now p pn title st = (Returns WINDOW_TITLE name, st') →
  let t := take 80 (trim title) in
  name = Str t
  ∧ (3 ≤ String.length t ≤ 80)%nat
  ∧ match t with String c _ => is_space c = false | EmptyString => False end.
Proof.
  intros H t. unfold t. tiers H; inversion H; subst; clear H; guards.
  all: split; [done|].
  all: match goal with H : (3 <=? _)%nat = true |- _ => apply Nat.leb_le in H end.
  all: rewrite length_take; split; [lia|].
  all: pose proof (trim_head title) as Hh.
  all: destruct (trim title) as [|c r]; [cbn in *; lia|]; done.
Qed.

Lemma putCache_grows pf now p name st :
  dom (byExe (cache st)) ⊆ dom (byExe (cache (putCache pf now p name st)))
  ∧ dom (byPath (cache st)) ⊆ dom (byPath (cache (putCache pf now p name st)))
  ∧ (scheduled st ≤ scheduled (putCache pf now p name st))%nat.
Proof.
  unfold putCache.
  destruct (negb (truthy name)); [done|]. cbv zeta.
  destruct (truthy (exeBase pf p) && _) eqn:E1;
    destruct (truthy p && truthy (lower p) && _) eqn:E2; cbn [orb];
    rewrite ?saveCacheSoon_cache, ?saveCacheSoon_scheduled; cbn;
    repeat split; try done; try apply dom_assign; lia.
Qed.

(** X11.  A call never removes a key from the cache and never lowers
    the count of scheduled flushes: entries are added or overwritten,
    not dropped. *)
Theorem cache_only_grows env os now p pn title st :
  let st' := (resolveDisplayName env os now p pn title st).2 in
  dom (byExe (cache st)) ⊆ dom (byExe (cache st'))
  ∧ dom (byPath (cache st)) ⊆ dom (byPath (cache st'))
  ∧ (scheduled st ≤ scheduled st')%nat.
Proof.
  destruct (resolveDisplayName env os now p pn title st) as [[tier name|] st'] eqn:H;
    cbn [snd].
  - apply resolveDisplayName_returns in H.
    destruct tier; try (by subst);
      destruct H as [(s & _ & _ & ->) _]; apply putCache_grows.
  - by apply resolveDisplayName_throws in H as [-> _].
Qed.
End ResolverMore.

(** * Calls that overlap and calls in turn *)

Section OverlapFacts.

Import Js Worker Overlap.

Variable pf : Platform.
Variable index : gmap string string.

(** The call is its part before the probe followed, when that part has
    no answer, by its part after the probe. *)
Lemma resolveDisplayName_split env os now p pn title st :
  Resolver.resolveDisplayName env os now p pn title st
  = match Resolver.beforeProbe env now p pn st with
    | Some r => r
    | None => Resolver.afterProbe env os now p pn title st
    end.
Proof.
  unfold Resolver.resolveDisplayName, Resolver.beforeProbe, Resolver.afterProbe.
  cbv zeta.
  repeat match goal with
    | |- context [match ?x with Some _ => _ | None => _ end] =>
        match x with
        | Resolver.metadata _ _ _ => fail 1
        | _ => destruct x; try reflexivity
        end
    end.
Qed.

(** A call that is resumed through its three awaits with no other call
    in between does what [pollActive] does. *)
Lemma advance_thrice t st :
  let r1 := advance pf index (mkFlight t AwaitsWindow) st in
  let r2 := advance pf index (mkFlight t r1.2) (after r1.1) in
  let r3 := advance pf index (mkFlight t r2.2) (after r2.1) in
  let o := pollActive pf index t st in
  r3.2 = Finished
  ∧ after r3.1 = after o
  ∧ (sent r1.1 ++ sent r2.1 ++ sent r3.1)%list = sent o
  ∧ logged r1.1 || logged r2.1 || logged r3.1 = logged o.
Proof.
  cbv zeta. unfold pollActive.
  cbn [advance stage tick]. unfold onWindow.
  destruct (probe t) as [|[aw|]].
  1, 3: cbn [advance stage tick fst snd after sent logged];
    by rewrite ?app_nil_r, ?orb_false_r.
  cbv zeta.
  destruct (excluded _).
  1: cbn [advance stage tick fst snd after sent logged];
    by rewrite ?app_nil_r, ?orb_false_r.
  destruct (negb _).
  1: cbn [advance stage tick fst snd after sent logged];
    by rewrite ?app_nil_r, ?orb_false_r.
  rewrite resolveDisplayName_split. unfold callResolver. cbv zeta.
  destruct (currentActive st) as [cur|].
  - destruct (bool_decide _).
    1: destruct (HEARTBEAT_MS <=? _);
      cbn [advance stage tick fst snd after sent logged];
      by rewrite ?app_nil_r, ?orb_false_r.
    destruct (Resolver.beforeProbe _ _ _ _ _) as [[[tier name|] rs]|].
    + cbn. done.
    + cbn. done.
    + destruct (Resolver.awaitsProbe _ _);
        cbn [advance stage tick fst snd after sent logged onProbe onName resolver
             currentActive lastHeartbeatAt];
        destruct (Resolver.afterProbe _ _ _ _ _ _ _) as [[tier name|] rs]; cbn; done.
  - destruct (Resolver.beforeProbe _ _ _ _ _) as [[[tier name|] rs]|].
    + cbn. done.
    + cbn. done.
    + destruct (Resolver.awaitsProbe _ _);
        cbn [advance stage tick fst snd after sent logged onProbe onName resolver
             currentActive lastHeartbeatAt];
        destruct (Resolver.afterProbe _ _ _ _ _ _ _) as [[tier name|] rs]; cbn; done.
Qed.

Lemma lookup_last_flight (l : list Flight) f : (l ++ [f])%list !! length l = Some f.
Proof. by rewrite lookup_app_r, Nat.sub_diag by lia. Qed.

Lemma insert_last_flight (l : list Flight) f g :
  <[length l := g]> (l ++ [f])%list = (l ++ [g])%list.
Proof. by rewrite insert_app_r_alt, Nat.sub_diag by lia. Qed.

(** One call run to its end with no other call in between. *)
Lemma exec_in_turn_one t m :
  let o := pollActive pf index t (vars m) in
  exec pf index (in_turn (length (flights m)) [t]) m
  = mkMachine (after o) (flights m ++ [mkFlight t Finished])
      (stream m ++ sent o) (failed m || logged o).
Proof.
  cbv zeta. destruct (advance_thrice t (vars m)) as (H1 & H2 & H3 & H4).
  cbv zeta in H1, H2, H3, H4.
  cbn [in_turn exec foldl]. cbn [step vars flights stream failed].
  rewrite lookup_last_flight. cbv zeta. cbn [vars flights stream failed tick].
  rewrite insert_last_flight, lookup_last_flight. cbv zeta.
  cbn [vars flights stream failed tick].
  rewrite insert_last_flight, lookup_last_flight. cbv zeta.
  cbn [vars flights stream failed tick].
  rewrite insert_last_flight.
  rewrite H1, H2, <- H3, <- H4, <- !app_assoc, !orb_assoc. done.
Qed.

Lemma exec_app s1 s2 m : exec pf index (s1 ++ s2) m = exec pf index s2 (exec pf index s1 m).
Proof. unfold exec. apply foldl_app. Qed.

(** Without overlap the worker does what [run] says. *)
Lemma exec_in_turn ts m :
  let o := run pf index ts (vars m) in
  exec pf index (in_turn (length (flights m)) ts) m
  = mkMachine (after o) (flights m ++ map (λ t, mkFlight t Finished) ts)
      (stream m ++ sent o) (failed m || logged o).
Proof.
  revert m. induction ts as [|t ts IH]; intros m; cbv zeta.
  { cbn. rewrite !app_nil_r, orb_false_r. by destruct m. }
  change (in_turn (length (flights m)) (t :: ts))
    with (in_turn (length (flights m)) [t] ++ in_turn (S (length (flights m))) ts)%list.
  rewrite exec_app, exec_in_turn_one.
  set (m1 := mkMachine _ _ _ _).
  assert (Hlen : S (length (flights m)) = length (flights m1)).
  { unfold m1. cbn. rewrite length_app. cbn. lia. }
  rewrite Hlen, IH. unfold m1. cbn [vars flights stream failed run after sent logged map].
  by rewrite <- !app_assoc, orb_assoc.
Qed.

End OverlapFacts.

(** * Further properties of the worker *)

Section WorkerMore.

Import Js Worker Overlap Timeline Examples.

Variable pf : Platform.
Variable index : gmap string string.

Opaque Tables.KNOWN_EXE_MAP Tables.KNOWN_GEEK_SET hasGameHint.

Lemma classify_cases base p :
  let b := toLowerCase base in
  (is_Some (Tables.KNOWN_EXE_MAP !! b) ∧ classify base p = mkClass game (9 # 10)%Q)
  ∨ (Tables.KNOWN_EXE_MAP !! b = None ∧ (b ∈ Tables.KNOWN_GEEK_SET)
     ∧ classify base p = mkClass geek (8 # 10)%Q)
  ∨ (Tables.KNOWN_EXE_MAP !! b = None ∧ (b ∉ Tables.KNOWN_GEEK_SET)
     ∧ hasGameHint p = true ∧ classify base p = mkClass game (6 # 10)%Q)
  ∨ (Tables.KNOWN_EXE_MAP !! b = None ∧ (b ∉ Tables.KNOWN_GEEK_SET)
     ∧ hasGameHint p = false ∧ classify base p = mkClass other (3 # 10)%Q).
Proof.
  intros b. unfold classify. fold b. clearbody b.
  destruct (Tables.KNOWN_EXE_MAP !! b) as [v|] eqn:Hk.
  { left. split; [by eexists|].
    rewrite bool_decide_eq_true_2 by (by eexists). reflexivity. }
  right. rewrite bool_decide_eq_false_2 by (by intros [? ?]).
  case_bool_decide as Hg. { left. repeat split; assumption. }
  right. destruct (hasGameHint p); [left|right];
    repeat split; try assumption; reflexivity.
Qed.

Lemma category_gate base p :
  is_game_or_geek (category (classify base p)) || hasGameHint p
  = negb (bool_decide (category (classify base p) = other)).
Proof.
  destruct (classify_cases base p)
    as [[[v Hk] Hc]|[(Hk & Hg & Hc)|[(Hk & Hg & Hh & Hc)|(Hk & Hg & Hh & Hc)]]];
    rewrite Hc; cbn [category is_game_or_geek orb]; try reflexivity.
  rewrite Hh. reflexivity.
Qed.

(** X1.  The classifier answers [other] exactly when the base name is
    in neither table and no path hint matches; hence the path-hint test
    of the second gate of [pollActive] never decides: the gate lets a
    snapshot through exactly when its category is not [other]. *)
Theorem second_gate_is_the_category base p :
  (category (classify base p) = other
   ↔ Tables.KNOWN_EXE_MAP !! toLowerCase base = None
     ∧ (toLowerCase base ∉ Tables.KNOWN_GEEK_SET)
     ∧ hasGameHint p = false)
  ∧ (is_game_or_geek (category (classify base p)) || hasGameHint p
     = negb (bool_decide (category (classify base p) = other))).
Proof.
  destruct (classify_cases base p)
    as [[[v Hk] Hc]|[(Hk & Hg & Hc)|[(Hk & Hg & Hh & Hc)|(Hk & Hg & Hh & Hc)]]];
    rewrite Hc; cbn [category is_game_or_geek orb]; (split; [split|]).
  all: try (intros [=]).
  all: try (intros (H1 & H2 & H3); congruence).
  all: try reflexivity.
  - repeat split; assumption.
  - rewrite Hh. reflexivity.
Qed.

Transparent Tables.KNOWN_EXE_MAP Tables.KNOWN_GEEK_SET hasGameHint.

Lemma qualifies_category aw :
  qualifies pf aw = true →
  category (classify (win_base pf aw) (win_exePath aw)) ≠ other.
Proof.
  unfold qualifies. intros [_ Hg]%andb_true_iff.
  rewrite category_gate in Hg. apply negb_true_iff, bool_decide_eq_false in Hg. done.
Qed.

(** X2.  Every update a tick sends is for a qualifying window and is
    complete.  Its payload is built for that window with the name that
    [resolveDisplayName] returned for it in the resolver state the tick
    found; the display name and the executable path are never null, the
    category is never [other]; and the tick leaves behind the resolver
    state of that call and a session that carries exactly that payload
    and starts at that tick. *)
Theorem update_payload_is_complete t st pl :
  Update pl ∈ sent (pollActive pf index t st) →
  ∃ aw tier name rs,
    probe t = ProbeReturns (Some aw)
    ∧ qualifies pf aw = true
    ∧ Resolver.resolveDisplayName (resolverEnv pf index) (os t) (cache_now t)
        (win_exePath aw) (win_procName aw) (win_title aw) (resolver st)
      = (Resolver.Returns tier name, rs)
    ∧ pl = buildPresencePayload pf (payload_now t) "active" (win_exePath aw)
             (win_title aw) (win_procName aw) (owner_pid aw) name
             (classify (win_base pf aw) (win_exePath aw))
    ∧ p_displayName pl = Some name
    ∧ p_exePath pl = Some (win_exePath aw)
    ∧ p_category pl ≠ other
    ∧ after (pollActive pf index t st)
      = mkState
          (Some (mkSession (signature_of aw) (owner_pid aw) (now t) (now t) pl))
          (now t) rs.
Proof.
  intros Hin.
  destruct (quiet pf t) eqn:Hq.
  { rewrite pollActive_quiet in Hin by done.
    by apply finishCurrentIfStale_no_update in Hin. }
  destruct (probe t) as [|[aw|]] eqn:Hp.
  - rewrite pollActive_probe_throws in Hin by done. by apply elem_of_nil in Hin.
  - assert (Hg : qualifies pf aw = true).
    { unfold quiet in Hq. rewrite Hp in Hq. by apply negb_false_iff. }
    assert (Hfin : ∀ tier name rs,
      Resolver.resolveDisplayName (resolverEnv pf index) (os t)
                (cache_now t) (win_exePath aw) (win_procName aw) (win_title aw)
                (resolver st) = (Resolver.Returns tier name, rs) →
      p_displayName (buildPresencePayload pf (payload_now t) "active" (win_exePath aw)
             (win_title aw) (win_procName aw) (owner_pid aw) name
             (classify (win_base pf aw) (win_exePath aw))) = Some name
    ∧ p_exePath (buildPresencePayload pf (payload_now t) "active" (win_exePath aw)
             (win_title aw) (win_procName aw) (owner_pid aw) name
             (classify (win_base pf aw) (win_exePath aw))) = Some (win_exePath aw)).
    { intros tier name rs Hr. cbn [buildPresencePayload p_displayName p_exePath].
      unfold or_null, value_or_null.
      rewrite (returned_name_truthy (resolverEnv pf index) _ _ _ _ _ _ _ _ _ known_names_truthy Hr).
      by rewrite (qualifies_path _ _ Hg). }
    destruct (Resolver.resolveDisplayName (resolverEnv pf index) (os t)
                (cache_now t) (win_exePath aw) (win_procName aw) (win_title aw)
                (resolver st)) as [[tier name|] rs] eqn:Hr;
      destruct (currentActive st) as [cur|] eqn:Hc.
    + destruct (decide (signature cur = signature_of aw)) as [Hs|Hs].
      * rewrite (pollActive_same _ _ _ _ _ _ Hp Hg Hc Hs) in Hin.
        destruct (HEARTBEAT_MS <=? _); cbn [sent] in Hin;
          rewrite ?elem_of_cons, ?elem_of_nil in Hin; [by destruct Hin as [[=]|[]]|done].
      * rewrite (pollActive_replace _ _ _ _ _ _ _ _ _ Hp Hg Hc Hs Hr) in Hin |- *.
        cbn [sent after] in *.
        rewrite !elem_of_cons, elem_of_nil in Hin.
        destruct Hin as [[=]|[[= ->]|[]]].
        destruct (Hfin _ _ _ eq_refl) as [H1 H2].
        exists aw, tier, name, rs. repeat split; try done.
        by apply qualifies_category.
    + rewrite (pollActive_start _ _ _ _ _ _ _ _ Hp Hg Hc Hr) in Hin |- *.
      cbn [sent after] in *.
      rewrite !elem_of_cons, elem_of_nil in Hin.
      destruct Hin as [[= ->]|[]].
      destruct (Hfin _ _ _ eq_refl) as [H1 H2].
      exists aw, tier, name, rs. repeat split; try done.
      by apply qualifies_category.
    + destruct (decide (signature cur = signature_of aw)) as [Hs|Hs].
      * rewrite (pollActive_same _ _ _ _ _ _ Hp Hg Hc Hs) in Hin.
        destruct (HEARTBEAT_MS <=? _); cbn [sent] in Hin;
          rewrite ?elem_of_cons, ?elem_of_nil in Hin; [by destruct Hin as [[=]|[]]|done].
      * rewrite (pollActive_replace_throws _ _ _ _ _ _ _ Hp Hg Hc Hs Hr) in Hin.
        cbn [sent] in Hin. rewrite ?elem_of_cons, ?elem_of_nil in Hin.
        by destruct Hin as [[=]|[]].
    + rewrite (pollActive_start_throws _ _ _ _ _ _ Hp Hg Hc Hr) in Hin.
      by apply elem_of_nil in Hin.
  - unfold quiet in Hq. by rewrite Hp in Hq.
Qed.

Lemma paced_app last evs1 evs2 :
  paced last (evs1 ++ evs2) = paced last evs1 && paced (last_beat last evs1) evs2.
Proof.
  revert last. induction evs1 as [|[t [pl|pl|pl z]] evs1 IH]; intros last;
    cbn [paced last_beat app]; rewrite ?IH; try done.
  by rewrite andb_assoc.
Qed.

Lemma last_beat_app last evs1 evs2 :
  last_beat last (evs1 ++ evs2) = last_beat (last_beat last evs1) evs2.
Proof.
  revert last. induction evs1 as [|[t [pl|pl|pl z]] evs1 IH]; intros last;
    cbn [last_beat app]; rewrite ?IH; done.
Qed.

Lemma finishCurrentIfStale_paced tnow st :
  paced (lastHeartbeatAt st) (map (pair tnow) (sent (finishCurrentIfStale tnow st))) = true
  ∧ last_beat (lastHeartbeatAt st) (map (pair tnow) (sent (finishCurrentIfStale tnow st)))
    = lastHeartbeatAt (after (finishCurrentIfStale tnow st)).
Proof.
  unfold finishCurrentIfStale. destruct (currentActive st) as [cur|]; [|done].
  by destruct (ACTIVE_STALE_MS <? tnow - lastSeen cur).
Qed.

Lemma pollActive_paced t st :
  paced (lastHeartbeatAt st) (map (pair (now t)) (sent (pollActive pf index t st))) = true
  ∧ last_beat (lastHeartbeatAt st) (map (pair (now t)) (sent (pollActive pf index t st)))
    = lastHeartbeatAt (after (pollActive pf index t st)).
Proof.
  destruct (quiet pf t) eqn:Hq.
  { rewrite pollActive_quiet by done. apply finishCurrentIfStale_paced. }
  destruct (probe t) as [|[aw|]] eqn:Hp.
  - by rewrite pollActive_probe_throws.
  - assert (Hg : qualifies pf aw = true).
    { unfold quiet in Hq. rewrite Hp in Hq. by apply negb_false_iff. }
    destruct (Resolver.resolveDisplayName (resolverEnv pf index) (os t)
                (cache_now t) (win_exePath aw) (win_procName aw) (win_title aw)
                (resolver st)) as [[tier name|] rs] eqn:Hr;
      destruct (currentActive st) as [cur|] eqn:Hc.
    + destruct (decide (signature cur = signature_of aw)) as [Hs|Hs].
      * rewrite (pollActive_same _ _ _ _ _ _ Hp Hg Hc Hs).
        destruct (HEARTBEAT_MS <=? _) eqn:Hb; cbn; by rewrite ?Hb.
      * by rewrite (pollActive_replace _ _ _ _ _ _ _ _ _ Hp Hg Hc Hs Hr).
    + by rewrite (pollActive_start _ _ _ _ _ _ _ _ Hp Hg Hc Hr).
    + destruct (decide (signature cur = signature_of aw)) as [Hs|Hs].
      * rewrite (pollActive_same _ _ _ _ _ _ Hp Hg Hc Hs).
        destruct (HEARTBEAT_MS <=? _) eqn:Hb; cbn; by rewrite ?Hb.
      * by rewrite (pollActive_replace_throws _ _ _ _ _ _ _ Hp Hg Hc Hs Hr).
    + by rewrite (pollActive_start_throws _ _ _ _ _ _ Hp Hg Hc Hr).
  - unfold quiet in Hq. by rewrite Hp in Hq.
Qed.

(** X3.  In every run, from every state, each heartbeat comes at least
    [HEARTBEAT_MS] after the update or heartbeat sent before it (after
    [lastHeartbeatAt] for the first one). *)
Theorem heartbeats_keep_their_distance ts st :
  paced (lastHeartbeatAt st) (timed_run pf index ts st) = true.
Proof.
  revert st. induction ts as [|t ts IH]; intros st; cbn [timed_run]; [done|].
  destruct (pollActive_paced t st) as [H1 H2].
  by rewrite paced_app, H1, H2, IH.
Qed.

(** X4.  When no call of [pollActive] overlaps another, each being run
    to its end before the timer fires again, and no call logs an error,
    the stream obeys update, heartbeats, ended, session after session:
    heartbeats and ended events carry the payload of the open session,
    and the session open at the end of the stream is the one the worker
    holds. *)
Theorem stream_obeys_lifecycle_without_errors ts st :
  let m := exec pf index (in_turn 0 ts) (boot st) in
  failed m = false →
  lifecycle (payload <$> currentActive st) (stream m)
  = Some (payload <$> currentActive (vars m)).
Proof.
  cbv zeta.
  change (in_turn 0 ts) with (in_turn (length (flights (boot st))) ts).
  rewrite exec_in_turn.
  cbn [boot vars flights stream failed app orb]. apply run_lifecycle.
Qed.

(** X5.  When no call of [pollActive] overlaps another, a worker
    started idle never sends two updates without an ended event between
    them, whatever the probe and the resolver do, errors included.
    (Calls that overlap do send two updates in a row, see
    [overlapping_calls_send_two_updates].) *)
Theorem updates_are_always_apart tnow ts :
  is_Some (updates_apart false
             (stream (exec pf index (in_turn 0 ts) (boot (Worker.init tnow))))).
Proof.
  change (in_turn 0 ts)
    with (in_turn (length (flights (boot (Worker.init tnow)))) ts).
  rewrite exec_in_turn.
  cbn [boot vars flights stream failed app].
  destruct (run_updates_apart pf index ts (Worker.init tnow) false) as (o & H & _);
    [done|]. by rewrite H.
Qed.

(** Two calls for one window, the second started while the first
    awaits the file description, both find the worker idle and both
    send an update, with no ended event in between and no error
    logged; run in turn, the same two calls send one update. *)
Lemma overlapping_calls_send_two_updates :
  let ticks := [tick_at 0 (seen foo_steam); tick_at 1000 (seen foo_steam)] in
  let m := exec win32 ∅ two_calls_overlapping (boot (Worker.init 0)) in
  let m' := exec win32 ∅ (in_turn 0 ticks) (boot (Worker.init 0)) in
  failed m = false
  ∧ (∃ pl1 pl2, stream m = [Update pl1; Update pl2])
  ∧ updates_apart false (stream m) = None
  ∧ (∃ pl, stream m' = [Update pl]).
Proof. vm_compute. repeat split; eauto. Qed.

(** X6.  A title change alone opens a second session.  When a tick has
    opened a session for a snapshot without logging an error and the
    next snapshot differs from it in the window title only, the next
    tick sends the ended event of the first session and then the update
    of a second one, which carries the new title and starts at that
    tick; the name of the second always resolves. *)
Theorem title_change_opens_a_second_session t1 t2 st0 aw1 aw2 ses1 :
  probe t1 = ProbeReturns (Some aw1) → qualifies pf aw1 = true →
  same_session st0 (signature_of aw1) = false →
  logged (pollActive pf index t1 st0) = false →
  currentActive (after (pollActive pf index t1 st0)) = Some ses1 →
  probe t2 = ProbeReturns (Some aw2) →
  win_exePath aw2 = win_exePath aw1 → win_procName aw2 = win_procName aw1 →
  owner_pid aw2 = owner_pid aw1 → win_title aw2 ≠ win_title aw1 →
  ∃ pl2,
    signature ses1 = signature_of aw1
    ∧ p_title pl2 = or_null (win_title aw2)
    ∧ pollActive pf index t2 (after (pollActive pf index t1 st0))
      = mkOutcome
          (mkState (Some (mkSession (signature_of aw2) (owner_pid aw2)
                            (now t2) (now t2) pl2))
             (now t2) (resolver (after (pollActive pf index t1 st0))))
          [Ended (payload ses1) (now t2); Update pl2] false.
Proof. apply title_change_ends_and_starts. Qed.

End WorkerMore.

(** * Properties of the library indexer and of the desktop-entry probe *)

Section ScanFacts.

Import Js Scan.

Variable w : World.

Lemma exe_dfs_iff n d p :
  p ∈ exe_dfs w n d ↔ ∃ dirs, (length dirs < n)%nat ∧ exe_at w d dirs p.
Proof.
  revert d. induction n as [|n IH]; intros d; cbn [exe_dfs].
  { split; [by intros ?%elem_of_nil|]. intros (dirs & Hl & _). lia. }
  destruct (readdirTypes w d) as [es|] eqn:Hd.
  - rewrite list_elem_of_In, in_flat_map. setoid_rewrite <- list_elem_of_In. split.
    + intros (e & He & Hp). cbv zeta in Hp.
      destruct (isDirectory e) eqn:Hdir.
      * destruct (is_redist (d_name e)) eqn:Hr; [by apply elem_of_nil in Hp|].
        apply IH in Hp as (dirs & Hl & Hdesc & Hfile).
        exists (d_name e :: dirs). split; [cbn; lia|]. split.
        -- cbn [descends]. split; [|done]. by exists e, es.
        -- done.
      * destruct (isFile e && is_exe (d_name e)) eqn:Hf; [|by apply elem_of_nil in Hp].
        apply andb_true_iff in Hf as [Hf1 Hf2].
        apply list_elem_of_singleton in Hp as ->.
        exists []. split; [cbn; lia|]. split; [done|].
        exists e, es. by repeat split.
    + intros (dirs & Hl & Hdesc & e & es' & Hes & He & Hdir & Hfile & Hexe & ->).
      destruct dirs as [|x dirs].
      * cbn [chain foldl] in *. rewrite Hd in Hes. injection Hes as <-.
        exists e. split; [done|]. cbv zeta. rewrite Hdir, Hfile, Hexe.
        by apply list_elem_of_singleton.
      * destruct Hdesc as [(e0 & es0 & Hes0 & He0 & <- & Hdir0 & Hr0) Hdesc].
        rewrite Hd in Hes0. injection Hes0 as <-.
        exists e0. split; [done|]. cbv zeta. rewrite Hdir0, Hr0.
        apply IH. exists dirs. split; [cbn in Hl; lia|]. split; [done|].
        exists e, es'. by repeat split.
  - split; [by intros ?%elem_of_nil|].
    intros (dirs & Hl & Hdesc & e & es' & Hes & _).
    destruct dirs as [|x dirs].
    + cbn [chain foldl] in Hes. congruence.
    + destruct Hdesc as [(e0 & es0 & Hes0 & _) _]. congruence.
Qed.

(** X12.  [findExecutablesWindows] finds exactly the listed files with
    an [.exe] name (in any letter case) that lie at most [depth]
    directories below [dir], the directories on the way being listed,
    readable and named neither [redist] nor [_commonredist]. *)
Theorem executables_found_are_the_reachable_ones dir depth p :
  p ∈ findExecutablesWindows w dir depth
  ↔ ∃ dirs, (length dirs ≤ depth)%nat ∧ exe_at w dir dirs p.
Proof.
  unfold findExecutablesWindows. rewrite exe_dfs_iff.
  split; intros (dirs & Hl & H); exists dirs; (split; [lia|done]).
Qed.

(** Truthiness, once reached, is kept by the walk. *)
Lemma app_dfs_found n d found :
  truthy found = true → app_dfs w n d found = found.
Proof. destruct n; cbn [app_dfs]; [done|]. by intros ->. Qed.

Lemma app_loop_sound lvl deeper d es0 es found :
  readdirTypes w d = Some es0 → (∀ e, e ∈ es → e ∈ es0) →
  (∀ x f, is_app x = false →
          (∃ e, e ∈ es0 ∧ d_name e = x ∧ isDirectory e = true) →
          deeper (join w [d; x]) f = f
          ∨ ∃ dirs, (length dirs < lvl)%nat
                    ∧ app_at w (join w [d; x]) dirs (deeper (join w [d; x]) f)) →
  app_loop w deeper d es found = found
  ∨ ∃ dirs, (length dirs < S lvl)%nat ∧ app_at w d dirs (app_loop w deeper d es found).
Proof.
  intros Hd Hsub Hdeep. revert found Hsub.
  induction es as [|e es IH]; intros found Hsub; cbn [app_loop]; [by left|].
  assert (He : e ∈ es0) by (apply Hsub; left).
  assert (Hsub' : ∀ e', e' ∈ es → e' ∈ es0) by (intros; apply Hsub; by right).
  cbv zeta. destruct (isDirectory e) eqn:Hdir; [|by apply IH].
  destruct (is_app (d_name e)) eqn:Happ.
  - right. exists []. split; [cbn; lia|]. split; [done|].
    exists e, es0. by repeat split.
  - destruct (Hdeep (d_name e) found Happ) as [Hsame|(dirs & Hl & Hdesc & Hat)];
      [by exists e| |].
    + rewrite Hsame. by apply IH.
    + destruct (IH (deeper (join w [d; d_name e]) found) Hsub') as [Hsame|Hr];
        [|by right].
      rewrite Hsame. right. exists (d_name e :: dirs). split; [cbn; lia|].
      split; [|done]. cbn [descends]. split; [|done]. by exists e, es0.
Qed.

Lemma app_dfs_sound n d found :
  app_dfs w n d found = found
  ∨ ∃ dirs, (length dirs < n)%nat ∧ app_at w d dirs (app_dfs w n d found).
Proof.
  revert d found. induction n as [|n IH]; intros d found; cbn [app_dfs]; [by left|].
  destruct (truthy found); [by left|].
  destruct (readdirTypes w d) as [es|] eqn:Hd; [|by left].
  eapply app_loop_sound; [done|done|]. intros x f _ _. apply IH.
Qed.

Lemma app_loop_truthy deeper d es found :
  (∀ l, truthy (join w l) = true) →
  (∀ p f, truthy f = true → deeper p f = f) →
  truthy found = true → truthy (app_loop w deeper d es found) = true.
Proof.
  intros Hj Hd. revert found. induction es as [|e es IH]; intros found Hf;
    cbn [app_loop]; [done|].
  cbv zeta. destruct (isDirectory e); [|by apply IH].
  destruct (is_app (d_name e)); [apply Hj|]. apply IH. by rewrite Hd.
Qed.

Lemma app_dfs_complete n d found dirs p :
  (∀ l, truthy (join w l) = true) →
  (length dirs < n)%nat → app_at w d dirs p →
  truthy (app_dfs w n d found) = true.
Proof.
  intros Hj. revert d found dirs. induction n as [|n IH]; intros d found dirs Hl Hat;
    [lia|].
  cbn [app_dfs]. destruct (truthy found) eqn:Hf; [done|].
  assert (Hkeep : ∀ p f, truthy f = true → app_dfs w n p f = f)
    by (intros; by apply app_dfs_found).
  destruct Hat as (Hdesc & e & es & Hes & He & Hdir & Happ & ->).
  destruct dirs as [|x dirs].
  - cbn [chain foldl] in Hes. rewrite Hes.
    clear Hes. revert found Hf. induction es as [|e' es IHes]; intros found Hf;
      [by apply elem_of_nil in He|].
    cbn [app_loop]. cbv zeta.
    apply elem_of_cons in He as [<-|He].
    + rewrite Hdir, Happ. apply Hj.
    + destruct (isDirectory e'); [|by apply IHes].
      destruct (is_app (d_name e')); [apply Hj|].
      destruct (truthy (app_dfs w n (join w [d; d_name e']) found)) eqn:Hf'.
      * by apply app_loop_truthy.
      * by apply IHes.
  - destruct Hdesc as [(e0 & es0 & Hes0 & He0 & <- & Hdir0 & Happ0) Hdesc].
    rewrite Hes0.
    assert (Hsub : truthy (app_dfs w n (join w [d; d_name e0]) "") = true).
    { eapply (IH _ _ dirs); [cbn in Hl; lia|]. split; [done|].
      exists e, es. by repeat split. }
    clear Hes0. revert found Hf. induction es0 as [|e' es0 IHes]; intros found Hf;
      [by apply elem_of_nil in He0|].
    cbn [app_loop]. cbv zeta.
    apply elem_of_cons in He0 as [<-|He0].
    + rewrite Hdir0, Happ0. apply app_loop_truthy; [done|done|].
      apply truthy_false in Hf. by subst found.
    + destruct (isDirectory e'); [|by apply IHes].
      destruct (is_app (d_name e')); [apply Hj|].
      destruct (truthy (app_dfs w n (join w [d; d_name e']) found)) eqn:Hf'.
      * by apply app_loop_truthy.
      * by apply IHes.
Qed.

(** X13.  Provided [path.join] never yields the empty string,
    [findAppBundleMac] answers [null] exactly when no directory with an
    [.app] name is listed at most [depth] directories below [dir], and
    what it answers otherwise is such a directory. *)
Theorem bundle_found_iff_one_is_reachable dir depth :
  (∀ l, truthy (join w l) = true) →
  let found := findAppBundleMac w dir depth in
  (truthy found = true ↔ ∃ dirs p, (length dirs ≤ depth)%nat ∧ app_at w dir dirs p)
  ∧ (truthy found = true → ∃ dirs, (length dirs ≤ depth)%nat ∧ app_at w dir dirs found).
Proof.
  intros Hj found.
  assert (Hsound : truthy found = true →
                   ∃ dirs, (length dirs ≤ depth)%nat ∧ app_at w dir dirs found).
  { intros Hf. destruct (app_dfs_sound (S depth) dir "") as [Hsame|(dirs & Hl & Hat)].
    - unfold found, findAppBundleMac in Hf. by rewrite Hsame in Hf.
    - exists dirs. split; [lia|done]. }
  split; [|done]. split.
  - intros Hf. destruct (Hsound Hf) as (dirs & Hl & Hat). by exists dirs, found.
  - intros (dirs & p & Hl & Hat). eapply app_dfs_complete; [done| |done]. lia.
Qed.

(** X14.  A bundle listed directly in [dir] always wins: the answer is
    the first such bundle, also when a directory listed before it holds
    a bundle of its own, which the walk finds first and then
    overwrites. *)
Theorem bundle_directly_inside_wins dir depth pre e post :
  readdirTypes w dir = Some (pre ++ e :: post)%list →
  isDirectory e = true → is_app (d_name e) = true →
  Forall (λ x, isDirectory x && is_app (d_name x) = false) pre →
  findAppBundleMac w dir depth = join w [dir; d_name e].
Proof.
  intros Hd Hdir Happ Hpre. unfold findAppBundleMac. cbn [app_dfs truthy].
  rewrite Hd. clear Hd. generalize "". induction Hpre as [|x pre Hx _ IH]; intros found.
  - cbn [app app_loop]. cbv zeta. by rewrite Hdir, Happ.
  - cbn [app app_loop]. cbv zeta.
    destruct (isDirectory x); [|apply IH]. cbn [andb] in Hx. rewrite Hx. apply IH.
Qed.
End ScanFacts.

Section IndexFacts.

Import Js Scan.

Variable w : World.

Lemma set_all_snoc l kv m :
  set_all (l ++ [kv])%list m = <[kv.1 := kv.2]> (set_all l m).
Proof. unfold set_all. by rewrite foldl_app. Qed.

(** The value under a key is that of the last entry written under it. *)
Lemma set_all_lookup l m k v :
  set_all l m !! k = Some v
  ↔ (∃ pre post, l = (pre ++ (k, v) :: post)%list ∧ ∀ v', (k, v') ∉ post)
    ∨ ((∀ v', (k, v') ∉ l) ∧ m !! k = Some v).
Proof.
  induction l as [|[k' v'] l IH] using rev_ind.
  { cbn. split.
    - intros H. right. split; [|done]. intros v' ?%elem_of_nil. done.
    - intros [(pre & post & Hl & _)|[_ H]]; [|done]. by destruct pre. }
  rewrite set_all_snoc. cbn [fst snd].
  destruct (decide (k' = k)) as [->|Hne].
  - rewrite lookup_insert_eq. split.
    + intros [= ->]. left. exists l, []. split; [done|]. intros ? ?%elem_of_nil. done.
    + intros [(pre & post & Hl & Hpost)|[Hno _]].
      * destruct post as [|x post _] using rev_ind.
        -- apply app_inj_tail in Hl as [_ [= ->]]. done.
        -- exfalso. rewrite app_comm_cons, app_assoc in Hl.
           apply app_inj_tail in Hl as [_ <-].
           apply (Hpost v'). apply elem_of_app. right. by left.
      * exfalso. apply (Hno v'). apply elem_of_app. right. by left.
  - rewrite lookup_insert_ne by done. rewrite IH. split.
    + intros [(pre & post & -> & Hpost)|[Hno Hm]].
      * left. exists pre, (post ++ [(k', v')])%list. split.
        -- by rewrite <- app_assoc.
        -- intros v'' [?|[=]%list_elem_of_singleton]%elem_of_app; [by eapply Hpost|done].
      * right. split; [|done].
        intros v'' [?|[=]%list_elem_of_singleton]%elem_of_app; [by eapply Hno|done].
    + intros [(pre & post & Hl & Hpost)|[Hno Hm]].
      * destruct post as [|x post _] using rev_ind.
        -- apply app_inj_tail in Hl as [_ [= ? ?]]. done.
        -- rewrite app_comm_cons, app_assoc in Hl.
           apply app_inj_tail in Hl as [-> <-].
           left. exists pre, post. split; [done|].
           intros v'' ?. apply (Hpost v''). apply elem_of_app. by left.
      * right. split; [|done]. intros v'' ?. apply (Hno v'').
        apply elem_of_app. by left.
Qed.

Lemma set_all_Forall (P : string → string → Prop) l m :
  Forall (λ kv, P kv.1 kv.2) l → map_Forall P m → map_Forall P (set_all l m).
Proof.
  intros Hl Hm k v [(pre & post & -> & _)|[_ H]]%set_all_lookup; [|by apply Hm].
  rewrite Forall_app, Forall_cons in Hl. by destruct Hl as (_ & ? & _).
Qed.

Lemma set_all_map_to_list (m1 m2 : gmap string string) :
  set_all (map_to_list m1) m2 = m1 ∪ m2.
Proof.
  apply map_eq. intros k. apply option_eq. intros v.
  rewrite set_all_lookup, lookup_union_Some_raw. split.
  - intros [(pre & post & Hl & _)|[Hno Hm]].
    + left. apply elem_of_map_to_list. rewrite Hl. apply elem_of_app. right. by left.
    + right. split; [|done]. destruct (m1 !! k) as [v'|] eqn:E; [|done].
      exfalso. apply (Hno v'). by apply elem_of_map_to_list.
  - intros [H1|[H1 H2]].
    + left. apply elem_of_map_to_list in H1 as H.
      apply list_elem_of_split in H as (pre & post & Hl).
      exists pre, post. split; [done|]. intros v' Hin.
      pose proof (NoDup_fst_map_to_list m1) as Hnd.
      rewrite Hl, fmap_app, fmap_cons in Hnd.
      apply NoDup_app in Hnd as (_ & _ & Hnd%NoDup_cons).
      destruct Hnd as [Hnd _]. apply Hnd. cbn.
      apply list_elem_of_fmap. by exists (k, v').
    + right. split; [|done]. intros v' Hin%elem_of_map_to_list. congruence.
Qed.

Lemma lower_char_idem c : lower_char (lower_char c) = lower_char c.
Proof. revert c. by intros [[] [] [] [] [] [] [] []]. Qed.

Lemma toLowerCase_idem s : toLowerCase (toLowerCase s) = toLowerCase s.
Proof.
  induction s as [|c r IH]; [done|]. unfold toLowerCase in *. cbn [map_chars].
  by rewrite lower_char_idem, IH.
Qed.

(** What it takes for a manifest file to contribute an entry. *)
Lemma epic_entry_Some f k v :
  epic_entry w f = Some (k, v)
  ↔ endsWith (toLowerCase f) ".item" = true
    ∧ ∃ t j install exeRel,
        readFile w (join w [manifestDir; f]) = Some t
        ∧ jsonItem w t = Some j
        ∧ DisplayName j = Some v ∧ truthy v = true
        ∧ InstallLocation j = Some install ∧ truthy install = true
        ∧ LaunchExecutable j = Some exeRel ∧ truthy exeRel = true
        ∧ k = toLowerCase (join w [install; exeRel]).
Proof.
  unfold epic_entry. destruct (endsWith (toLowerCase f) ".item"); cbn [negb];
    [|split; [done|by intros [? _]]].
  destruct (readFile w _) as [t|] eqn:Hr;
    [|split; [done|by intros (_ & ? & ? & ? & ? & ? & _)]].
  destruct (jsonItem w t) as [[dn il le]|] eqn:Hj.
  2: { split; [done|]. intros (_ & t' & j & ? & ? & [= <-] & ? & _). congruence. }
  cbn [DisplayName InstallLocation LaunchExecutable]. cbv zeta. split.
  - destruct dn as [n|], il as [i|], le as [e|]; cbn [or_empty truthy negb orb];
      try (by rewrite ?orb_true_r); try done.
    destruct (truthy n) eqn:Hn, (truthy i) eqn:Hi, (truthy e) eqn:He;
      cbn [negb orb]; try done.
    intros [= <- <-]. split; [done|].
    by exists t, (mkEpicItem (Some n) (Some i) (Some e)), i, e.
  - intros (_ & t' & j & install & exeRel & [= <-] & Hj' & Hd & Hv & Hil & Hi & Hle & He & ->).
    rewrite Hj in Hj'. injection Hj' as <-. cbn in Hd, Hil, Hle. subst.
    cbn [or_empty]. by rewrite Hv, Hi, He.
Qed.

Lemma omap_split {A B} (g : A → option B) l pre' y post' :
  omap g l = (pre' ++ y :: post')%list →
  ∃ pre x post, l = (pre ++ x :: post)%list ∧ g x = Some y
                ∧ omap g pre = pre' ∧ omap g post = post'.
Proof.
  revert pre'. induction l as [|a l IH]; intros pre'.
  { by destruct pre'. }
  change (omap g (a :: l)) with (match g a with Some b => b :: omap g l | None => omap g l end).
  destruct (g a) as [b|] eqn:Ha.
  - destruct pre' as [|b' pre']; cbn [app].
    + intros [= -> Hl]. exists [], a, l. by rewrite Ha.
    + intros [= -> Hl]. destruct (IH _ Hl) as (pre & x & post & -> & Hx & <- & <-).
      exists (a :: pre), x, post. repeat split; try done.
      change (omap g (a :: pre)) with (match g a with Some b => b :: omap g pre | None => omap g pre end).
      by rewrite Ha.
  - intros Hl. destruct (IH _ Hl) as (pre & x & post & -> & Hx & <- & <-).
    exists (a :: pre), x, post. repeat split; try done.
    change (omap g (a :: pre)) with (match g a with Some b => b :: omap g pre | None => omap g pre end).
    by rewrite Ha.
Qed.

(** X15.  The Epic scan holds a name under a key exactly when the
    platform is Windows, the manifest directory is readable and the
    last of its files to contribute that key contributes that name: a
    later manifest overwrites an earlier one, and files that are not
    [.item] files, cannot be read or parsed, or lack one of the three
    fields contribute nothing and stop nothing. *)
Theorem epic_index_holds_the_last_manifest pf k v :
  scanEpic w pf !! k = Some v
  ↔ pf = win32
    ∧ ∃ pre f post,
        readdir w manifestDir = Some (pre ++ f :: post)%list
        ∧ epic_entry w f = Some (k, v)
        ∧ Forall (λ g, ∀ v', epic_entry w g ≠ Some (k, v')) post.
Proof.
  unfold scanEpic. destruct pf; try (split; [by rewrite lookup_empty|by intros [? _]]).
  destruct (readdir w manifestDir) as [files|];
    [|split; [by rewrite lookup_empty|by intros (_ & ? & ? & ? & ? & _)]].
  rewrite set_all_lookup. split.
  - intros [(pre' & post' & Hl & Hpost)|[_ H]]; [|by rewrite lookup_empty in H].
    split; [done|].
    destruct (omap_split _ _ _ _ _ Hl) as (pre & f & post & -> & Hf & _ & <-).
    exists pre, f, post. repeat split; try done.
    apply Forall_forall. intros g Hg v' Hgv. apply (Hpost v').
    apply list_elem_of_omap. by exists g.
  - intros (_ & pre & f & post & [= ->] & Hf & Hpost). left.
    exists (omap (epic_entry w) pre), (omap (epic_entry w) post). split.
    + rewrite omap_app. simpl. by rewrite Hf.
    + intros v' (g & Hg & Hgv)%list_elem_of_omap.
      rewrite Forall_forall in Hpost. by eapply Hpost.
Qed.

(** The two scans of [warmup], merged: Epic over Steam. *)
Lemma warmup_union pf : warmup w pf = scanEpic w pf ∪ scanSteam w pf.
Proof.
  unfold warmup. rewrite !set_all_map_to_list. by rewrite (right_id ∅ (∪)).
Qed.

Lemma steam_entry_off pf dir f :
  pf ≠ win32 → pf ≠ darwin → steam_entry w pf dir f = None.
Proof.
  intros H1 H2. unfold steam_entry.
  repeat case_match; try done; by destruct pf.
Qed.

Lemma scanSteam_off pf : pf ≠ win32 → pf ≠ darwin → scanSteam w pf = ∅.
Proof.
  intros H1 H2. unfold scanSteam.
  assert (Hdir : ∀ d, steam_dir w pf d = []).
  { intros d. unfold steam_dir.
    destruct (readdir w d) as [files|]; [|done].
    induction files as [|f files IHf]; [done|]. simpl.
    by rewrite steam_entry_off. }
  assert (Hroot : ∀ sap, steam_root w pf sap = []).
  { intros sap. unfold steam_root. cbv zeta.
    destruct (readFile w _) as [txt|]; [|done].
    destruct (vdfParse w txt) as [jf|]; [|done].
    destruct (lib_dirs w _) as [dirs|]; [|done].
    induction (dirname w _ :: dirs) as [|d ds IH]; [done|]. cbn [flat_map].
    by rewrite IH, Hdir. }
  induction (steamCandidates w pf) as [|sap saps IH]; [done|].
  cbn [flat_map]. by rewrite Hroot.
Qed.

Lemma steam_entry_Some pf dir f k v :
  steam_entry w pf dir f = Some (k, v) →
  toLowerCase k = k ∧ truthy v = true.
Proof.
  unfold steam_entry. intros H.
  repeat case_match; simplify_eq; split; try apply toLowerCase_idem;
    match goal with H : negb (truthy ?n) || _ = false |- truthy ?n = true =>
      apply orb_false_iff in H as [H _]; by apply negb_false_iff in H end.
Qed.

Lemma scanSteam_entries pf :
  map_Forall (λ k v, toLowerCase k = k ∧ truthy v = true) (scanSteam w pf).
Proof.
  unfold scanSteam. apply set_all_Forall; [|apply map_Forall_empty].
  apply Forall_forall. intros [k v] Hin.
  apply list_elem_of_In, in_flat_map in Hin as (sap & _ & Hin).
  unfold steam_root in Hin. cbv zeta in Hin.
  destruct (readFile w _) as [txt|]; [|by destruct Hin].
  destruct (vdfParse w txt) as [jf|]; [|by destruct Hin].
  destruct (lib_dirs w _) as [dirs|]; [|by destruct Hin].
  apply in_flat_map in Hin as (d & _ & Hin). unfold steam_dir in Hin.
  destruct (readdir w d) as [files|]; [|by destruct Hin].
  apply list_elem_of_In, list_elem_of_omap in Hin as (f & _ & Hf).
  by eapply steam_entry_Some.
Qed.

Lemma scanEpic_entries pf :
  map_Forall (λ k v, toLowerCase k = k ∧ truthy v = true) (scanEpic w pf).
Proof.
  unfold scanEpic. destruct pf; try apply map_Forall_empty.
  destruct (readdir w manifestDir) as [files|]; [|apply map_Forall_empty].
  apply set_all_Forall; [|apply map_Forall_empty].
  apply Forall_forall. intros [k v] (f & _ & Hf)%list_elem_of_omap.
  apply epic_entry_Some in Hf as (_ & t & j & i & e & _ & _ & _ & Hv & _ & _ & _ & _ & ->).
  split; [apply toLowerCase_idem|done].
Qed.

Lemma warmup_entries pf :
  map_Forall (λ k v, toLowerCase k = k ∧ truthy v = true) (warmup w pf).
Proof.
  rewrite warmup_union.
  apply map_Forall_union_2; [apply scanEpic_entries|apply scanSteam_entries].
Qed.

(** X16.  The index [warmup] builds is the Epic scan laid over the
    Steam scan, and each of its entries has a key in lower case, as the
    lookup of tier 3 needs, and a non-empty name. *)
Theorem index_entries_are_usable pf :
  (∀ k, warmup w pf !! k
        = match scanEpic w pf !! k with
          | Some v => Some v
          | None => scanSteam w pf !! k
          end)
  ∧ map_Forall (λ k v, toLowerCase k = k ∧ truthy v = true) (warmup w pf).
Proof.
  split; [|apply warmup_entries].
  intros k. rewrite warmup_union, lookup_union.
  by destruct (scanEpic w pf !! k), (scanSteam w pf !! k).
Qed.

(** X17.  On a platform that is neither Windows nor macOS the index is
    empty whatever the file system holds (the Steam scan looks for no
    executable there, the Epic scan is skipped), so no call ever
    answers from tier 3. *)
Theorem no_library_index_off_windows_and_mac pf :
  pf ≠ win32 → pf ≠ darwin →
  warmup w pf = ∅
  ∧ ∀ known os now p pn title st name st',
      Resolver.resolveDisplayName (Resolver.mkEnv known pf (warmup w pf))
        os now p pn title st
      ≠ (Resolver.Returns Resolver.PRECOMPUTED name, st').
Proof.
  intros H1 H2.
  assert (He : warmup w pf = ∅).
  { rewrite warmup_union, scanSteam_off by done.
    unfold scanEpic. by destruct pf. }
  split; [done|]. rewrite He. intros known os now p pn title st name st' H.
  tiers H; inversion H; subst; clear H; guards.
  cbn in *. by rewrite lookup_empty in *.
Qed.

Lemma steam_entry_inv pf dir f k v :
  steam_entry w pf dir f = Some (k, v) →
  startsWith f "appmanifest_" = true ∧ endsWith f ".acf" = true
  ∧ truthy v = true
  ∧ ∃ installdir found,
      truthy installdir = true ∧ truthy found = true ∧ k = toLowerCase found
      ∧ match pf with
        | win32 =>
            found = first_or_null
                      (findExecutablesWindows w (join w [dir; "common"; installdir]) 2)
        | darwin => found = findAppBundleMac w (join w [dir; "common"; installdir]) 2
        | _ => False
        end.
Proof.
  unfold steam_entry.
  destruct (startsWith f "appmanifest_"), (endsWith f ".acf"); cbn [negb orb]; try done.
  destruct (readFile w _) as [t|]; [|done].
  destruct (vdfParse w t) as [doc|]; [|done]. cbv zeta.
  set (man := match prop doc "AppState" with
              | Some m => if vtruthy m then m else VObj []
              | None => VObj []
              end).
  destruct (truthy (text (prop man "name"))) eqn:Hn; cbn [negb orb]; [|done].
  destruct (truthy (text (prop man "installdir"))) eqn:Hi; cbn [negb]; [|done].
  destruct pf; cbn [truthy]; try done.
  - destruct (truthy (first_or_null _)) eqn:Hf; [|done]. intros [= <- <-].
    repeat split; try done. eexists _, _. by repeat split.
  - destruct (truthy (findAppBundleMac _ _ _)) eqn:Hf; [|done]. intros [= <- <-].
    repeat split; try done. eexists _, _. by repeat split.
Qed.

(** X18.  Every entry of the Steam scan has a non-empty name and, as its
    key, the lower-cased path of what the walk found under
    [<library>/common/<installdir>]: on Windows a listed [.exe] file at
    most two directories down and outside the redistributable folders,
    on macOS the answer of [findAppBundleMac]. *)
Theorem steam_entries_point_at_what_the_walks_found pf k v :
  scanSteam w pf !! k = Some v →
  truthy v = true
  ∧ ∃ dir installdir found,
      truthy installdir = true ∧ truthy found = true ∧ k = toLowerCase found
      ∧ match pf with
        | win32 =>
            ∃ dirs, (length dirs ≤ 2)%nat
                    ∧ exe_at w (join w [dir; "common"; installdir]) dirs found
        | darwin => found = findAppBundleMac w (join w [dir; "common"; installdir]) 2
        | _ => False
        end.
Proof.
  unfold scanSteam.
  intros [(pre & post & Hl & _)|[_ H]]%set_all_lookup; [|by rewrite lookup_empty in H].
  assert (Hin : (k, v) ∈ flat_map (steam_root w pf) (steamCandidates w pf)).
  { rewrite Hl. apply elem_of_app. right. by left. }
  apply list_elem_of_In, in_flat_map in Hin as (sap & _ & Hin).
  unfold steam_root in Hin. cbv zeta in Hin.
  destruct (readFile w _) as [txt|]; [|by destruct Hin].
  destruct (vdfParse w txt) as [jf|]; [|by destruct Hin].
  destruct (lib_dirs w _) as [ds|]; [|by destruct Hin].
  apply in_flat_map in Hin as (d & _ & Hin). unfold steam_dir in Hin.
  destruct (readdir w d) as [files|]; [|by destruct Hin].
  apply list_elem_of_In, list_elem_of_omap in Hin as (f & _ & Hf).
  apply steam_entry_inv in Hf as (_ & _ & Hv & installdir & found & Hi & Hfo & -> & Hpf).
  split; [done|]. exists d, installdir, found. repeat split; try done.
  destruct pf; try done. subst found.
  destruct (findExecutablesWindows w _ 2) as [|p ps] eqn:He; [done|].
  cbn [first_or_null] in *.
  assert (Hin : p ∈ exe_dfs w 3 (join w [d; "common"; installdir])).
  { unfold findExecutablesWindows in He. rewrite He. by left. }
  apply exe_dfs_iff in Hin as (dirs & Hlen & Hat). exists dirs. split; [lia|done].
Qed.

(** X19.  A path whose lower-cased form is a key of the index, for an
    executable unknown to the table and for which the two reads of the
    cache give nothing truthy, resolves to the name of the index in
    whatever letter case the path is written, without consulting the
    metadata probes or the title, and the name is then cached under the
    lower-cased path and under the base name. *)
Theorem index_hit_is_returned_and_cached
    pf known os now p pn title st (name : string) :
  warmup w pf !! toLowerCase p = Some name →
  truthy p = true →
  let ex := or_else (Resolver.exeBase pf p) (Resolver.lower pn) in
  known !! ex = None →
  Resolver.held (Resolver.byExe (Resolver.cache st)) ex = None →
  Resolver.held (Resolver.byPath (Resolver.cache st)) (toLowerCase p) = None →
  let r := Resolver.resolveDisplayName (Resolver.mkEnv known pf (warmup w pf))
             os now p pn title st in
  r.1 = Resolver.Returns Resolver.PRECOMPUTED name
  ∧ Resolver.byPath (Resolver.cache r.2) !! toLowerCase p = Some name
  ∧ (truthy (Resolver.exeBase pf p) = true →
     Resolver.byExe (Resolver.cache r.2) !! Resolver.exeBase pf p = Some name).
Proof.
  intros Hhit Hp ex Hk He Hpa r.
  assert (Hn : truthy name = true).
  { by apply (warmup_entries pf _ _ Hhit). }
  assert (Hr : r = (Resolver.Returns Resolver.PRECOMPUTED name,
                    Resolver.putCache pf now p name st)).
  { unfold r, Resolver.resolveDisplayName. cbv zeta.
    cbn [Resolver.platform Resolver.knownMap Resolver.precomputedPaths].
    fold ex. unfold Resolver.get, Resolver.lower. rewrite Hk, He, Hp, Hpa, Hhit, Hn.
    destruct (truthy ex); cbn [andb].
    all: destruct (size (warmup w pf) =? 0)%nat eqn:Hs; [|done].
    all: apply Nat.eqb_eq, map_size_empty_iff in Hs; by rewrite Hs in Hhit. }
  rewrite Hr. cbn [fst snd]. split; [done|]. split.
  - apply putCache_byPath; [done|done|]. by apply held_None_assignable.
  - intros Hb. apply putCache_byExe; [done|done|].
    apply held_None_assignable. unfold ex in He.
    by rewrite (or_else_truthy _ _ Hb) in He.
Qed.

Lemma trimEnd_cons c r :
  trimEnd (String c r)
  = match trimEnd r with
    | EmptyString => if is_space c then EmptyString else String c EmptyString
    | r' => String c r'
    end.
Proof. reflexivity. Qed.

Lemma trimEnd_idem s : trimEnd (trimEnd s) = trimEnd s.
Proof.
  induction s as [|c r IH]; [done|]. rewrite (trimEnd_cons c r).
  destruct (trimEnd r) as [|c' r'] eqn:E.
  - destruct (is_space c) eqn:Hc; [done|]. rewrite trimEnd_cons. cbn [trimEnd].
    by rewrite Hc.
  - rewrite trimEnd_cons, IH. done.
Qed.

Lemma trimStart_fixed s :
  match s with String c _ => is_space c = false | EmptyString => True end →
  trimStart s = s.
Proof. destruct s as [|c r]; [done|]. cbn [trimStart]. by intros ->. Qed.

Lemma trim_idem s : trim (trim s) = trim s.
Proof.
  unfold trim at 1. rewrite trimStart_fixed by apply trim_head.
  unfold trim. apply trimEnd_idem.
Qed.

Lemma first_answer_Some {A} (g : A → option string) l r :
  first_answer g l = Some r → ∃ x, x ∈ l ∧ g x = Some r.
Proof.
  induction l as [|x l IH]; [done|]. cbn [first_answer].
  destruct (g x) as [y|] eqn:E.
  - intros [= ->]. exists x. split; [by left|done].
  - intros (x' & Hin & Hx)%IH. exists x'. split; [by right|done].
Qed.

(** X20.  Whatever [linuxDesktopName] answers has no white space at
    either end and is the value of a line that starts with [Name=], in
    a readable [.desktop] file of one of the three application
    directories whose text holds [Exec=] and, in any letter case, the
    base name of the executable. *)
Theorem desktop_name_is_a_trimmed_name_line pf exePath name :
  linuxDesktopName w pf exePath = Some name →
  trim name = name
  ∧ ∃ dir files f t line,
      dir ∈ desktopDirs w
      ∧ readdir w dir = Some files ∧ f ∈ files
      ∧ endsWith f ".desktop" = true
      ∧ readFile w (join w [dir; f]) = Some t
      ∧ includes t "Exec=" = true
      ∧ includes (toLowerCase t) (toLowerCase (Path.basename pf exePath)) = true
      ∧ line ∈ split_lines t ∧ startsWith line "Name=" = true
      ∧ name = trim (drop 5 line).
Proof.
  unfold linuxDesktopName.
  intros (dir & Hdir & Hd)%first_answer_Some. unfold desktop_dir in Hd.
  destruct (readdir w dir) as [files|] eqn:Hfiles; [|done].
  apply first_answer_Some in Hd as (f & Hf & He). unfold desktop_entry in He.
  destruct (endsWith f ".desktop") eqn:Hext; cbn [negb] in He; [|done].
  destruct (readFile w _) as [t|] eqn:Ht; [|done].
  destruct (includes t "Name=") eqn:Hn; cbn [negb orb] in He; [|done].
  destruct (includes t "Exec=") eqn:Hx; cbn [negb] in He; [|done].
  destruct (includes (toLowerCase t) _) eqn:Hb; cbn [negb] in He; [|done].
  destruct (name_line t) as [line|] eqn:Hl; [|done]. injection He as <-.
  split; [apply trim_idem|].
  apply find_some in Hl as [Hin Hs]. apply list_elem_of_In in Hin.
  exists dir, files, f, t, line. by repeat split.
Qed.
End IndexFacts.

(** * The properties above at concrete inputs *)

Section Instances.

Import Js Resolver Worker Scan Text Examples Worlds.

Lemma update_payload_is_complete_witness :
  Update (payload cs2_session)
  ∈ sent (pollActive win32 ∅ (tick_at 0 (seen cs2)) (Worker.init 0))
  ∧ ∃ aw tier name rs,
      probe (tick_at 0 (seen cs2)) = ProbeReturns (Some aw)
      ∧ qualifies win32 aw = true
      ∧ resolveDisplayName (resolverEnv win32 ∅) (os (tick_at 0 (seen cs2)))
          (cache_now (tick_at 0 (seen cs2))) (win_exePath aw) (win_procName aw)
          (win_title aw) (resolver (Worker.init 0))
        = (Returns tier name, rs)
      ∧ payload cs2_session
        = buildPresencePayload win32 (payload_now (tick_at 0 (seen cs2))) "active"
            (win_exePath aw) (win_title aw) (win_procName aw) (owner_pid aw) name
            (classify (win_base win32 aw) (win_exePath aw))
      ∧ p_displayName (payload cs2_session) = Some name
      ∧ p_exePath (payload cs2_session) = Some (win_exePath aw)
      ∧ p_category (payload cs2_session) ≠ other
      ∧ after (pollActive win32 ∅ (tick_at 0 (seen cs2)) (Worker.init 0))
        = Worker.mkState
            (Some (mkSession (signature_of aw) (owner_pid aw)
                     (now (tick_at 0 (seen cs2))) (now (tick_at 0 (seen cs2)))
                     (payload cs2_session)))
            (now (tick_at 0 (seen cs2))) rs.
Proof.
  assert (H : Update (payload cs2_session)
              ∈ sent (pollActive win32 ∅ (tick_at 0 (seen cs2)) (Worker.init 0))).
  { vm_compute. apply list_elem_of_here. }
  split; [exact H|].
  exact (update_payload_is_complete win32 ∅ (tick_at 0 (seen cs2)) (Worker.init 0)
           (payload cs2_session) H).
Defined.

Lemma stream_obeys_lifecycle_without_errors_witness :
  lifecycle None
    (Overlap.stream
       (Overlap.exec win32 ∅
          (Overlap.in_turn 0 [tick_at 0 (seen cs2); tick_at 6000 (seen cs2);
                              tick_at 20000 nothing])
          (Overlap.boot (Worker.init 0))))
  = Some None.
Proof.
  apply (stream_obeys_lifecycle_without_errors win32 ∅
           [tick_at 0 (seen cs2); tick_at 6000 (seen cs2); tick_at 20000 nothing]
           (Worker.init 0)).
  vm_compute. reflexivity.
Defined.

Lemma resolved_name_is_stable_witness :
  ∃ tier',
    resolveDisplayName env0 (c_os foo_elsewhere) 9 (c_exePath foo_act1)
      (c_processName foo_act1) "Foo - Act 2" (call env0 foo_act1 (Resolver.init 0)).2
    = (Returns tier' "Foo - Act 1", (call env0 foo_act1 (Resolver.init 0)).2)
    ∧ (tier' = KNOWN ∨ tier' = CACHE).
Proof.
  apply (resolved_name_is_stable env0 (c_os foo_act1) (c_now foo_act1)
           (c_exePath foo_act1) (c_processName foo_act1) (c_windowTitle foo_act1)
           (Resolver.init 0) WINDOW_TITLE).
  - vm_compute. reflexivity.
  - reflexivity.
Defined.

Lemma returns_for_paths_without_percent_witness :
  ∃ tier name st',
    resolveDisplayName env0 no_os 0 "C:\Steam\steamapps\common\Orange Juice\game.exe"
      "game" "" (Resolver.init 0)
    = (Returns tier name, st').
Proof.
  apply (returns_for_paths_without_percent env0 no_os 0
           "C:\Steam\steamapps\common\Orange Juice\game.exe" "game" "" (Resolver.init 0)).
  vm_compute. reflexivity.
Defined.

Lemma worker_names_are_never_empty_witness : Str "Foo - Act 1" ≠ Str "".
Proof.
  apply (worker_names_are_never_empty win32 ∅ (c_os foo_act1) (c_now foo_act1)
           (c_exePath foo_act1) (c_processName foo_act1) (c_windowTitle foo_act1)
           (Resolver.init 0) WINDOW_TITLE "Foo - Act 1"
           (call env0 foo_act1 (Resolver.init 0)).2).
  vm_compute. reflexivity.
Defined.

Lemma title_name_is_bounded_witness :
  let t := take 80 (trim "  Foo - Act 1 ") in
  Str "Foo - Act 1" = Str t
  ∧ (3 ≤ String.length t ≤ 80)%nat
  ∧ match t with String c _ => is_space c = false | EmptyString => False end.
Proof.
  apply (title_name_is_bounded env0 no_os 1 "C:\Games\Foo\foo.exe" "foo"
           "  Foo - Act 1 " (Resolver.init 0) "Foo - Act 1"
           (putCache win32 1 "C:\Games\Foo\foo.exe" "Foo - Act 1" (Resolver.init 0))).
  vm_compute. reflexivity.
Defined.

Lemma title_change_opens_a_second_session_witness :
  ∃ pl2,
    signature cs2_session = signature_of cs2
    ∧ p_title pl2 = or_null (win_title cs2_paused)
    ∧ pollActive win32 ∅ (tick_at 1000 (seen cs2_paused))
        (after (pollActive win32 ∅ (tick_at 0 (seen cs2)) (Worker.init 0)))
      = mkOutcome
          (mkState (Some (mkSession (signature_of cs2_paused) (owner_pid cs2_paused)
                            1000 1000 pl2))
             1000
             (resolver (after (pollActive win32 ∅ (tick_at 0 (seen cs2)) (Worker.init 0)))))
          [Ended (payload cs2_session) 1000; Update pl2] false.
Proof.
  apply (title_change_opens_a_second_session win32 ∅ (tick_at 0 (seen cs2))
           (tick_at 1000 (seen cs2_paused)) (Worker.init 0) cs2 cs2_paused cs2_session).
  all: try (vm_compute; reflexivity).
  vm_compute. discriminate.
Defined.

Lemma bundle_found_iff_one_is_reachable_witness :
  (truthy (findAppBundleMac mac "/Games/Sample/Extras" 2) = true
   ↔ ∃ dirs p, (length dirs ≤ 2)%nat ∧ app_at mac "/Games/Sample/Extras" dirs p)
  ∧ (truthy (findAppBundleMac mac "/Games/Sample/Extras" 2) = true →
     ∃ dirs, (length dirs ≤ 2)%nat
             ∧ app_at mac "/Games/Sample/Extras" dirs
                 (findAppBundleMac mac "/Games/Sample/Extras" 2)).
Proof.
  apply (bundle_found_iff_one_is_reachable mac "/Games/Sample/Extras" 2).
  intros l. simpl. unfold join_with.
  destruct (truthy (Js.join "/" l)) eqn:E; [exact E|reflexivity].
Defined.

Lemma bundle_directly_inside_wins_witness :
  findAppBundleMac mac "/Games/Sample/Extras" 2 = "/Games/Sample/Extras/Game.app"
  ∧ findAppBundleMac mac "/Games/Sample" 2 = "/Games/Sample/Launcher.app".
Proof.
  split; [vm_compute; reflexivity|].
  apply (bundle_directly_inside_wins mac "/Games/Sample" 2
           [dir "Extras"; file "notes.txt"] (dir "Launcher.app") []).
  - vm_compute. reflexivity.
  - reflexivity.
  - vm_compute. reflexivity.
  - repeat constructor.
Defined.

Lemma no_library_index_off_windows_and_mac_witness :
  warmup windows win32 !! toLowerCase sample_exe = Some "Sample Game"
  ∧ warmup windows linux = ∅
  ∧ ∀ known os now p pn title st name st',
      resolveDisplayName (mkEnv known linux (warmup windows linux)) os now p pn title st
      ≠ (Returns PRECOMPUTED name, st').
Proof.
  split; [vm_compute; reflexivity|].
  apply (no_library_index_off_windows_and_mac windows linux); discriminate.
Defined.

Lemma steam_entries_point_at_what_the_walks_found_witness :
  truthy "Sample Game" = true
  ∧ ∃ dir installdir found,
      truthy installdir = true ∧ truthy found = true
      ∧ toLowerCase sample_exe = toLowerCase found
      ∧ ∃ dirs, (length dirs ≤ 2)%nat
                ∧ exe_at windows (join windows [dir; "common"; installdir]) dirs found.
Proof.
  apply (steam_entries_point_at_what_the_walks_found windows win32
           (toLowerCase sample_exe) "Sample Game").
  vm_compute. reflexivity.
Defined.

Lemma index_hit_is_returned_and_cached_witness :
  let r := resolveDisplayName (mkEnv Tables.KNOWN_EXE_MAP win32 (warmup windows win32))
             no_os 5 sample_exe "Sample" "" (Resolver.init 0) in
  r.1 = Returns PRECOMPUTED "Sample Game"
  ∧ byPath (cache r.2) !! toLowerCase sample_exe = Some "Sample Game"
  ∧ (truthy (Resolver.exeBase win32 sample_exe) = true →
     byExe (cache r.2) !! Resolver.exeBase win32 sample_exe = Some "Sample Game").
Proof.
  apply (index_hit_is_returned_and_cached windows win32 Tables.KNOWN_EXE_MAP
           no_os 5 sample_exe "Sample" "" (Resolver.init 0) "Sample Game").
  all: vm_compute; reflexivity.
Defined.

Lemma desktop_name_is_a_trimmed_name_line_witness :
  trim "Foo Quest" = "Foo Quest"
  ∧ ∃ dir files f t line,
      dir ∈ desktopDirs linux_box
      ∧ readdir linux_box dir = Some files ∧ f ∈ files
      ∧ endsWith f ".desktop" = true
      ∧ readFile linux_box (join linux_box [dir; f]) = Some t
      ∧ includes t "Exec=" = true
      ∧ includes (toLowerCase t) (toLowerCase (Path.basename linux "/opt/foo/foo-bin")) = true
      ∧ line ∈ split_lines t ∧ startsWith line "Name=" = true
      ∧ "Foo Quest" = trim (drop 5 line).
Proof.
  apply (desktop_name_is_a_trimmed_name_line linux_box linux "/opt/foo/foo-bin" "Foo Quest").
  vm_compute. reflexivity.
Defined.

End Instances.
